(** * A shallow embedding of colinmarc/cdb: hash, writer and reader

    The development follows the Go sources: [hash.go] (the 32-bit cdb hash),
    [util.go] (tuples of little-endian words), [writer.go] (the buffered
    writer: [NewWriter], [Put], [Close], [Freeze], [finalize]) and the reader
    ([New], [readIndex], [Get], [getValueAt], [Each]).

    Conventions.  A [uint32] is a [Z] reduced modulo [2^32] wherever the Go
    code computes in that type.  Slice lengths ([len], Go's [int]) and the
    writer's [int64] offset are unbounded [Z]: both are sums of lengths of
    slices held in memory and stay far below [2^63].  A byte is a
    [Byte.byte].  The underlying store (an [os.File] in the tests) is a byte
    list with a cursor; it is reliable, so the only failures it reports are
    reads past the end and operations on a closed handle. *)

From Stdlib Require Import Strings.String Strings.Byte ZArith List Lia Bool.
Import ListNotations.
Local Open Scope Z_scope.

(** ** Machine integers, lengths and array cells *)

Definition uint32 (z : Z) : Z := z mod 2 ^ 32.

(** [const maxUint32 = int64(^uint32(0))] *)
Definition maxUint32 : Z := 2 ^ 32 - 1.

(** [const indexSize = 256 * 8] *)
Definition indexSize : Z := 256 * 8.

Definition len {A : Type} (l : list A) : Z := Z.of_nat (length l).

(** [a[i] = x] on a fixed-size array: every index the code uses is in range. *)
Fixpoint upd {A : Type} (i : nat) (x : A) (l : list A) : list A :=
  match l, i with
  | [], _ => []
  | _ :: t, O => x :: t
  | h :: t, S j => h :: upd j x t
  end.

Definition Z_of_byte (b : byte) : Z := Z.of_N (Byte.to_N b).

(** The conversion [byte(v)] keeps the low eight bits. *)
Definition byte_of_Z (z : Z) : byte :=
  match Byte.of_N (Z.to_N (z mod 256)) with
  | Some b => b
  | None => x00
  end.

Definition bytes_eq_dec : forall a b : list byte, {a = b} + {a <> b} :=
  list_eq_dec Byte.byte_eq_dec.

(** ** Errors and results

    A Go call either returns, possibly with a non-nil [error], or panics
    (here: a nil pointer dereference or a slice bound out of range). *)

Inductive error : Type :=
| ErrTooMuchData   (* "CDB files are limited to 4GB of data" *)
| ErrInvalid       (* os.ErrInvalid *)
| EOF              (* io.EOF: fewer bytes than asked for *)
| ErrClosed.       (* os.ErrClosed *)

Inductive result (A : Type) : Type :=
| Ok (a : A)
| Err (e : error)
| Panic.
Arguments Ok {A} a.
Arguments Err {A} e.
Arguments Panic {A}.

(** State and error passing, for the methods that mutate their receiver. *)
Definition M (S A : Type) : Type := S -> S * result A.

Definition ret {S A : Type} (a : A) : M S A := fun s => (s, Ok a).

Definition bind {S A B : Type} (m : M S A) (k : A -> M S B) : M S B :=
  fun s =>
    match m s with
    | (s', Ok a) => k a s'
    | (s', Err e) => (s', Err e)
    | (s', Panic) => (s', Panic)
    end.

Definition fail {S A : Type} (e : error) : M S A := fun s => (s, Err e).
Definition gets {S A : Type} (f : S -> A) : M S A := fun s => (s, Ok (f s)).
Definition modify {S : Type} (f : S -> S) : M S unit := fun s => (f s, Ok tt).

Declare Scope go_scope.
Delimit Scope go_scope with go.
Notation "x <- m ;; k" := (bind m (fun x => k))
  (at level 61, m at next level, right associativity) : go_scope.
Notation "m ;;; k" := (bind m (fun _ => k))
  (at level 61, right associativity) : go_scope.

(** ** encoding/binary, little endian *)

Module LittleEndian.

(** [PutUint32(b, v)]: [b[0] = byte(v)], [b[1] = byte(v >> 8)], ... *)
Definition PutUint32 (v : Z) : list byte :=
  [byte_of_Z v; byte_of_Z (Z.shiftr v 8);
   byte_of_Z (Z.shiftr v 16); byte_of_Z (Z.shiftr v 24)].

(** [Uint32(b)]: [b[0] | b[1]<<8 | b[2]<<16 | b[3]<<24].  Go panics on a
    slice shorter than four bytes; every caller passes four. *)
Definition Uint32 (b : list byte) : Z :=
  match b with
  | b0 :: b1 :: b2 :: b3 :: _ =>
      Z.lor (Z_of_byte b0)
        (Z.lor (Z.shiftl (Z_of_byte b1) 8)
           (Z.lor (Z.shiftl (Z_of_byte b2) 16) (Z.shiftl (Z_of_byte b3) 24)))
  | _ => 0
  end.

End LittleEndian.

(** ** hash.go *)

(** [const start = 5381] *)
Definition start : Z := 5381.

(** [v = ((v << 5) + v) ^ uint32(b)], in [uint32]. *)
Definition hashStep (v : Z) (b : byte) : Z :=
  Z.lxor (uint32 (uint32 (Z.shiftl v 5) + v)) (Z_of_byte b).

Fixpoint CDBHashSum32Update (data : list byte) (v : Z) : Z :=
  match data with
  | [] => v
  | b :: rest => CDBHashSum32Update rest (hashStep v b)
  end.

Definition CDBHashSum32 (data : list byte) : Z := CDBHashSum32Update data start.

(** [type cdbHash struct { uint32 }] with its [hash.Hash32] methods. *)
Record cdbHash : Type := { digest32 : Z }.

Definition newCDBHash : cdbHash := {| digest32 := start |}.

Definition cdbHash_Write (h : cdbHash) (data : list byte) : cdbHash :=
  {| digest32 := CDBHashSum32Update data (digest32 h) |}.

Definition Sum32 (h : cdbHash) : Z := digest32 h.

(** The digest [Put] and [Get] compute: [newCDBHash(); Write(key); Sum32()]. *)
Definition keyHash (key : list byte) : Z :=
  Sum32 (cdbHash_Write newCDBHash key).

(** ** The underlying store

    [data] are the bytes of the file, [pos] the cursor of the handle.
    [isCloser] and [isReaderAt] say whether the dynamic type of the handle
    has a [Close] and a [ReadAt] method (an [os.File] has both). *)

Record File : Type := {
  data : list byte;
  pos : nat;
  closed : bool;
  isCloser : bool;
  isReaderAt : bool
}.

(** Overwrite [p] at position [at_] of [d], growing [d] (zero filled) if
    needed. *)
Definition write_at (d : list byte) (at_ : nat) (p : list byte) : list byte :=
  firstn at_ d ++ repeat x00 (at_ - length d) ++ p ++ skipn (at_ + length p) d.

(** [Seek(0, os.SEEK_SET)] *)
Definition Seek0 : M File Z := fun f =>
  if closed f then (f, Err ErrClosed)
  else ({| data := data f; pos := 0; closed := false;
           isCloser := isCloser f; isReaderAt := isReaderAt f |}, Ok 0).

Definition File_Write (p : list byte) : M File Z := fun f =>
  if closed f then (f, Err ErrClosed)
  else ({| data := write_at (data f) (pos f) p;
           pos := (pos f + length p)%nat; closed := false;
           isCloser := isCloser f; isReaderAt := isReaderAt f |}, Ok (len p)).

Definition File_Close : M File unit := fun f =>
  if closed f then (f, Err ErrClosed)
  else ({| data := data f; pos := pos f; closed := true;
           isCloser := isCloser f; isReaderAt := isReaderAt f |}, Ok tt).

(** [ReadAt(buf, off)] with [len(buf) = n]: all [n] bytes or an error. *)
Definition ReadAt (f : File) (n : Z) (off : Z) : result (list byte) :=
  if closed f then Err ErrClosed
  else if n =? 0 then Ok []
  else if off + n <=? len (data f)
       then Ok (firstn (Z.to_nat n) (skipn (Z.to_nat off) (data f)))
       else Err EOF.

(** Opening the same file again ([os.Open] on its path). *)
Definition reopen (f : File) : File :=
  {| data := data f; pos := 0; closed := false;
     isCloser := true; isReaderAt := true |}.

(** ** bufio.Writer

    The standard library's buffered writer, by its contract: the bytes
    written reach the underlying writer in order, at the latest on [Flush].
    The state is the bytes not yet passed on; [None] is the nil pointer. *)

Definition bufioWriter : Type := list byte.

Definition bufio_Write (p : list byte) : M (option bufioWriter) Z := fun w =>
  match w with
  | None => (None, Panic)
  | Some b => (Some (b ++ p), Ok (len p))
  end.

(** ** util.go *)

(** [writeTuple(w, first, second)] *)
Definition writeTuple (first second : Z) : M (option bufioWriter) unit :=
  (let tuple := LittleEndian.PutUint32 first ++ LittleEndian.PutUint32 second in
   _ <- bufio_Write tuple ;; ret tt)%go.

(** [readTuple(r, offset)]: the reader calls it as a function of the
    [io.ReaderAt]; its body is that of the method in util.go. *)
Definition readTuple (r : File) (offset : Z) : result (Z * Z) :=
  match ReadAt r 8 offset with
  | Ok tuple =>
      Ok (LittleEndian.Uint32 (firstn 4 tuple),
          LittleEndian.Uint32 (skipn 4 tuple))
  | Err e => Err e
  | Panic => Panic
  end.

(** ** writer.go *)

Record entry : Type := { hash : Z; offset : Z }.

(** [type table struct { offset, length uint32 }] and [type index [256]table] *)
Record table : Type := { table_offset : Z; table_length : Z }.

Definition index : Type := list table.

Definition zeroTable : table := {| table_offset := 0; table_length := 0 |}.

(** The zero value of [index]. *)
Definition zeroIndex : index := repeat zeroTable 256.

Record Writer : Type := {
  writer : File;
  entries : list (list entry);          (* [256][]entry *)
  finalizeOnce : bool;                  (* sync.Once: has [Do] run? *)
  bufferedWriter : option bufioWriter;  (* *bufio.Writer *)
  bufferedOffset : Z                    (* int64 *)
}.

(** [CDB] of the reader: declared here because [Freeze] builds one. *)
Record CDB : Type := { reader : File; cdb_index : index }.

Definition set_writer (f : File) (w : Writer) : Writer :=
  {| writer := f; entries := entries w; finalizeOnce := finalizeOnce w;
     bufferedWriter := bufferedWriter w; bufferedOffset := bufferedOffset w |}.

Definition set_entries (es : list (list entry)) (w : Writer) : Writer :=
  {| writer := writer w; entries := es; finalizeOnce := finalizeOnce w;
     bufferedWriter := bufferedWriter w; bufferedOffset := bufferedOffset w |}.

Definition set_finalizeOnce (b : bool) (w : Writer) : Writer :=
  {| writer := writer w; entries := entries w; finalizeOnce := b;
     bufferedWriter := bufferedWriter w; bufferedOffset := bufferedOffset w |}.

Definition set_bufferedWriter (b : option bufioWriter) (w : Writer) : Writer :=
  {| writer := writer w; entries := entries w; finalizeOnce := finalizeOnce w;
     bufferedWriter := b; bufferedOffset := bufferedOffset w |}.

Definition set_bufferedOffset (o : Z) (w : Writer) : Writer :=
  {| writer := writer w; entries := entries w; finalizeOnce := finalizeOnce w;
     bufferedWriter := bufferedWriter w; bufferedOffset := o |}.

(** A call on [cdb.bufferedWriter] and a call on [cdb.writer]. *)
Definition onBuffered {A : Type} (m : M (option bufioWriter) A) : M Writer A :=
  fun w => let (b, r) := m (bufferedWriter w) in (set_bufferedWriter b w, r).

Definition onWriter {A : Type} (m : M File A) : M Writer A :=
  fun w => let (f, r) := m (writer w) in (set_writer f w, r).

(** [NewWriter(writer)] *)
Definition NewWriter (f : File) : result Writer :=
  match Seek0 f with
  | (f1, Ok _) =>
      match File_Write (repeat x00 (Z.to_nat indexSize)) f1 with
      | (f2, Ok _) =>
          Ok {| writer := f2; entries := repeat [] 256; finalizeOnce := false;
                bufferedWriter := Some []; bufferedOffset := indexSize |}
      | (_, Err e) => Err e
      | (_, Panic) => Panic
      end
  | (_, Err e) => Err e
  | (_, Panic) => Panic
  end.

(** [Put(key, value)] *)
Definition Put (key value : list byte) : M Writer unit :=
  (h <- ret (keyHash key) ;;
   tbl <- ret (Z.to_nat (Z.land h 255)) ;;
   off <- gets bufferedOffset ;;
   e <- ret {| hash := h; offset := uint32 off |} ;;
   modify (fun cdb =>
     set_entries (upd tbl (nth tbl (entries cdb) [] ++ [e]) (entries cdb)) cdb) ;;;
   onBuffered (writeTuple (uint32 (len key)) (uint32 (len value))) ;;;
   _ <- onBuffered (bufio_Write key) ;;
   _ <- onBuffered (bufio_Write value) ;;
   modify (fun cdb =>
     set_bufferedOffset (bufferedOffset cdb + (8 + len key + len value)) cdb) ;;;
   off' <- gets bufferedOffset ;;
   if off' >? maxUint32 then fail ErrTooMuchData else ret tt)%go.

(** The inner loop of [finalize]: [for _, entry := range tableEntries]. *)
Fixpoint writeEntries (tableEntries : list entry) : M Writer unit :=
  match tableEntries with
  | [] => ret tt
  | e :: rest =>
      (onBuffered (writeTuple (hash e) (offset e)) ;;;
       modify (fun cdb => set_bufferedOffset (bufferedOffset cdb + 8) cdb) ;;;
       off <- gets bufferedOffset ;;
       if off >? maxUint32 then fail ErrTooMuchData else writeEntries rest)%go
  end.

(** The outer loop of [finalize], over the bucket numbers still to do. *)
Fixpoint writeTables (buckets : list nat) (idx : index) : M Writer index :=
  match buckets with
  | [] => ret idx
  | i :: rest =>
      (tableEntries <- gets (fun cdb => nth i (entries cdb) []) ;;
       off <- gets bufferedOffset ;;
       idx' <- ret (upd i {| table_offset := uint32 off;
                             table_length := uint32 (len tableEntries) |} idx) ;;
       writeEntries tableEntries ;;;
       writeTables rest idx')%go
  end.

(** The header: [PutUint32(buf[off:off+4], table.offset)],
    [PutUint32(buf[off+4:off+8], table.length)] for each table in turn. *)
Definition encodeIndex (idx : index) : list byte :=
  flat_map (fun t => LittleEndian.PutUint32 (table_offset t) ++
                     LittleEndian.PutUint32 (table_length t)) idx.

(** [bufferedWriter.Flush()] followed by [cdb.bufferedWriter = nil]: the
    assignment is made before the error of [Flush] is looked at. *)
Definition flushAndDrop : M Writer unit := fun cdb =>
  match bufferedWriter cdb with
  | None => (cdb, Panic)
  | Some b =>
      match File_Write b (writer cdb) with
      | (f, Ok _) => (set_bufferedWriter None (set_writer f cdb), Ok tt)
      | (f, Err e) => (set_bufferedWriter None (set_writer f cdb), Err e)
      | (f, Panic) => (set_bufferedWriter None (set_writer f cdb), Panic)
      end
  end.

(** [finalize()].  On an error Go returns the partly filled index with it;
    both callers drop that index, so the model returns the error alone. *)
Definition finalize : M Writer index :=
  (idx <- writeTables (seq 0 256) zeroIndex ;;
   flushAndDrop ;;;
   _ <- onWriter Seek0 ;;
   _ <- onWriter (File_Write (encodeIndex idx)) ;;
   ret idx)%go.

(** [cdb.finalizeOnce.Do(func() { index, err = cdb.finalize() })]: the
    closure runs on the first call only; otherwise [index] and [err] keep
    their zero values. *)
Definition finalizeOnce_Do : M Writer index := fun cdb =>
  if finalizeOnce cdb then (cdb, Ok zeroIndex)
  else finalize (set_finalizeOnce true cdb).

(** [Close()] *)
Definition Close : M Writer unit :=
  (_ <- finalizeOnce_Do ;;
   isC <- gets (fun cdb => isCloser (writer cdb)) ;;
   if isC then onWriter File_Close else ret tt)%go.

(** [Freeze()] *)
Definition Freeze : M Writer CDB :=
  (idx <- finalizeOnce_Do ;;
   f <- gets writer ;;
   if isReaderAt f then ret {| reader := f; cdb_index := idx |}
   else fail ErrInvalid)%go.

(** ** The reader *)

(** [readIndex()]: the 256 tables decoded from the first [indexSize] bytes. *)
Definition decodeIndex (buf : list byte) : index :=
  map (fun i : nat =>
         let off := (i * 8)%nat in
         {| table_offset :=
              LittleEndian.Uint32 (firstn 4 (skipn off buf));
            table_length :=
              LittleEndian.Uint32 (firstn 4 (skipn (off + 4) buf)) |})
      (seq 0 256).

Definition readIndex (r : File) : result index :=
  match ReadAt r indexSize 0 with
  | Ok buf => Ok (decodeIndex buf)
  | Err e => Err e
  | Panic => Panic
  end.

(** [New(reader)] *)
Definition New (r : File) : result CDB :=
  match readIndex r with
  | Ok idx => Ok {| reader := r; cdb_index := idx |}
  | Err e => Err e
  | Panic => Panic
  end.

(** [getValueAt(offset, expectedKey)]: [Ok None] is the nil slice returned
    for a record with another key, [Ok (Some v)] a non-nil value (possibly
    of length zero).  [buf[:keyLength]] panics when the [uint32] sum
    [keyLength+valueLength] has wrapped below [keyLength]. *)
Definition getValueAt (cdb : CDB) (offset : Z) (expectedKey : list byte)
  : result (option (list byte)) :=
  match readTuple (reader cdb) offset with
  | Ok (keyLength, valueLength) =>
      if negb (keyLength =? len expectedKey) then Ok None
      else
        match ReadAt (reader cdb) (uint32 (keyLength + valueLength))
                (uint32 (offset + 8)) with
        | Ok buf =>
            if keyLength >? len buf then Panic
            else if bytes_eq_dec (firstn (Z.to_nat keyLength) buf) expectedKey
                 then Ok (Some (skipn (Z.to_nat keyLength) buf))
                 else Ok None
        | Err e => Err e
        | Panic => Panic
        end
  | Err e => Err e
  | Panic => Panic
  end.

(** How the probe loop of [Get] is left: by [return value, nil], by the
    [break] on a slot whose hash is 0, by the [break] on the slot being back
    at [startingSlot], or by [return nil, err]. *)
Inductive probeExit : Type :=
| Hit (value : list byte)
| EmptySlot
| FullCycle
| Fault (e : error)
| Crash.

(** The [for { ... }] of [Get], entered at [slot].  [fuel] bounds the number
    of iterations; [None] means the bound was reached with the loop still
    running. *)
Fixpoint probe (fuel : nat) (cdb : CDB) (key : list byte) (h : Z) (tbl : table)
    (startingSlot slot : Z) : option probeExit :=
  match fuel with
  | O => None
  | S fuel' =>
      let slotOffset := uint32 (table_offset tbl + uint32 (8 * slot)) in
      match readTuple (reader cdb) slotOffset with
      | Err e => Some (Fault e)
      | Panic => Some Crash
      | Ok (slotHash, off) =>
          let continue :=
            let slot' := uint32 (slot + 1) mod table_length tbl in
            if slot' =? startingSlot then Some FullCycle
            else probe fuel' cdb key h tbl startingSlot slot' in
          if slotHash =? 0 then Some EmptySlot
          else if slotHash =? h then
            match getValueAt cdb off key with
            | Err e => Some (Fault e)
            | Panic => Some Crash
            | Ok (Some value) => Some (Hit value)
            | Ok None => continue
            end
          else continue
      end
  end.

(** The probe of [Get(key)] from its first slot, or [None] when the bucket
    is empty and [Get] returns before the loop. *)
Definition probeOf (fuel : nat) (cdb : CDB) (key : list byte)
  : option (option probeExit) :=
  let h := keyHash key in
  let tbl := nth (Z.to_nat (Z.land h 255)) (cdb_index cdb) zeroTable in
  if table_length tbl =? 0 then None
  else
    let startingSlot := Z.shiftr h 8 mod table_length tbl in
    Some (probe fuel cdb key h tbl startingSlot startingSlot).

(** [Get(key)]: both [break]s lead to [return nil, nil]. *)
Definition Get_fuel (fuel : nat) (cdb : CDB) (key : list byte)
  : option (result (option (list byte))) :=
  match probeOf fuel cdb key with
  | None => Some (Ok None)
  | Some None => None
  | Some (Some (Hit value)) => Some (Ok (Some value))
  | Some (Some EmptySlot) => Some (Ok None)
  | Some (Some FullCycle) => Some (Ok None)
  | Some (Some (Fault e)) => Some (Err e)
  | Some (Some Crash) => Some Panic
  end.

(** The loop comes back to [startingSlot] after [table.length] iterations at
    the latest, so that many are enough (see [probe_total]). *)
Definition Get (cdb : CDB) (key : list byte)
  : option (result (option (list byte))) :=
  let tbl := nth (Z.to_nat (Z.land (keyHash key) 255)) (cdb_index cdb) zeroTable in
  Get_fuel (Z.to_nat (table_length tbl)) cdb key.

(** [Each(eachFunc)]: the visitor is a function with a state of its own.
    [fuel] bounds the iterations of the [for pos < endPos] loop. *)
Fixpoint eachLoop {S : Type} (fuel : nat) (cdb : CDB)
    (eachFunc : list byte -> list byte -> M S unit) (endPos pos : Z)
  : S -> option (S * result unit) :=
  fun s =>
    if pos <? endPos then
      match fuel with
      | O => None
      | S fuel' =>
          match readTuple (reader cdb) pos with
          | Err e => Some (s, Err e)
          | Panic => Some (s, Panic)
          | Ok (keyLength, valueLength) =>
              match ReadAt (reader cdb) (uint32 (keyLength + valueLength))
                      (uint32 (pos + 8)) with
              | Err e => Some (s, Err e)
              | Panic => Some (s, Panic)
              | Ok buf =>
                  if keyLength >? len buf then Some (s, Panic)
                  else
                    match eachFunc (firstn (Z.to_nat keyLength) buf)
                            (skipn (Z.to_nat keyLength) buf) s with
                    | (s', Err e) => Some (s', Err e)
                    | (s', Panic) => Some (s', Panic)
                    | (s', Ok _) =>
                        eachLoop fuel' cdb eachFunc endPos
                          (uint32 (pos + uint32 (uint32 (8 + keyLength) + valueLength))) s'
                    end
              end
          end
      end
    else Some (s, Ok tt).

Definition Each {S : Type} (fuel : nat) (cdb : CDB)
    (eachFunc : list byte -> list byte -> M S unit)
  : S -> option (S * result unit) :=
  eachLoop fuel cdb eachFunc
    (table_offset (nth 0 (cdb_index cdb) zeroTable)) (uint32 indexSize).

(** ** Clients, as in the tests and the README *)

Definition record : Type := (list byte * list byte)%type.

(** [for _, record := range records { err := writer.Put(record[0],
    record[1]); require.NoError(t, err) }] *)
Fixpoint PutAll (records : list record) : M Writer unit :=
  match records with
  | [] => ret tt
  | (key, value) :: rest => (Put key value ;;; PutAll rest)%go
  end.

(** The two ways to finish a database: [Freeze], which hands out a reader on
    the writer's own store, and [Close], after which the file is opened
    again and read with [New]. *)
Inductive finishing : Type := ByFreeze | ByClose.

Definition finish (how : finishing) (w : Writer) : result CDB :=
  match how with
  | ByFreeze => snd (Freeze w)
  | ByClose =>
      match Close w with
      | (w', Ok _) => New (reopen (writer w'))
      | (_, Err e) => Err e
      | (_, Panic) => Panic
      end
  end.

(** [NewWriter], the [Put]s, then the finishing call. *)
Definition build (how : finishing) (f : File) (records : list record)
  : result CDB :=
  match NewWriter f with
  | Ok w =>
      match PutAll records w with
      | (w', Ok _) => finish how w'
      | (_, Err e) => Err e
      | (_, Panic) => Panic
      end
  | Err e => Err e
  | Panic => Panic
  end.


(** A visitor for [Each] that appends what it is given to a log. *)
Definition logVisit (key value : list byte) : M (list record) unit :=
  fun log => (log ++ [(key, value)], Ok tt).

(** ** The layout a finished store is expected to have *)

Definition recordSize (r : record) : Z := 8 + len (fst r) + len (snd r).

Definition encodeRecord (r : record) : list byte :=
  LittleEndian.PutUint32 (uint32 (len (fst r))) ++
  LittleEndian.PutUint32 (uint32 (len (snd r))) ++ fst r ++ snd r.

Definition encodeEntry (e : entry) : list byte :=
  LittleEndian.PutUint32 (hash e) ++ LittleEndian.PutUint32 (offset e).

Definition totalSize (records : list record) : Z :=
  fold_right (fun r acc => recordSize r + acc) 0 records.

(** The records with the position each one is written at, from [off] on. *)
Fixpoint placed (off : Z) (records : list record) : list (Z * record) :=
  match records with
  | [] => []
  | r :: rest => (off, r) :: placed (off + recordSize r) rest
  end.

Definition bucketOf (key : list byte) : nat := Z.to_nat (Z.land (keyHash key) 255).

(** The placed records of bucket [i], in [Put] order. *)
Definition bucket (i : nat) (ps : list (Z * record)) : list (Z * record) :=
  filter (fun p => Nat.eqb (bucketOf (fst (snd p))) i) ps.

Definition entryOf (p : Z * record) : entry :=
  {| hash := keyHash (fst (snd p)); offset := uint32 (fst p) |}.

(** What a visitor sees on a list of records: it is called on each in turn
    until it fails. *)
Fixpoint visitAll {S : Type} (eachFunc : list byte -> list byte -> M S unit)
    (records : list record) : M S unit :=
  match records with
  | [] => ret tt
  | (key, value) :: rest => (eachFunc key value ;;; visitAll eachFunc rest)%go
  end.

(** [d] holds the bytes [bs] from position [off] on. *)
Definition holds (d : list byte) (off : Z) (bs : list byte) : Prop :=
  exists pre post, d = pre ++ bs ++ post /\ len pre = off.

(** The entries of the buckets listed in [buckets], counted. *)
Definition lenSum (E : list (list entry)) (buckets : list nat) : Z :=
  fold_right (fun j acc => len (nth j E []) + acc) 0 buckets.

(** The bytes of the table of bucket [j]. *)
Definition encodeTable (E : list (list entry)) (j : nat) : list byte :=
  concat (map encodeEntry (nth j E [])).

(** The pending entries after the given [Put]s, bucket by bucket. *)
Definition entriesOf (records : list record) : list (list entry) :=
  map (fun i => map entryOf (bucket i (placed indexSize records))) (seq 0 256).

(** The writer on store [f] after the given [Put]s. *)
Definition writerAfter (f : File) (records : list record) : Writer :=
  {| writer := f;
     entries := entriesOf records;
     finalizeOnce := false;
     bufferedWriter := Some (concat (map encodeRecord records));
     bufferedOffset := indexSize + totalSize records |}.


(** The index [finalize] computes for the given [Put]s. *)
Definition indexOf (records : list record) : index :=
  map (fun i =>
         {| table_offset :=
              uint32 (indexSize + totalSize records +
                      8 * lenSum (entriesOf records) (seq 0 i));
            table_length := uint32 (len (nth i (entriesOf records) [])) |})
      (seq 0 256).

(** The bytes of a finished store: header, records, tables. *)
Definition storeBytes (records : list record) : list byte :=
  encodeIndex (indexOf records) ++
  concat (map encodeRecord records) ++
  concat (map (encodeTable (entriesOf records)) (seq 0 256)).

(** The hash as the specification words it: start from 5381 and, for each
    byte, multiply by 33 and exclusive-or the byte in, modulo [2^32]. *)
Definition specHash (data : list byte) : Z :=
  fold_left (fun v b => Z.lxor ((v * 32 + v) mod 2 ^ 32) (Z_of_byte b)) data 5381.

(** [func cdbHash(data []byte) uint32] of the earlier revision of hash.go. *)
Definition cdbHash_v0 (data : list byte) : Z :=
  fold_left hashStep data start.

(** The store [NewWriter] leaves behind: the placeholder header, then
    whatever the file held beyond it. *)
Definition freshStore (f : File) : File :=
  {| data := repeat x00 (Z.to_nat indexSize) ++ skipn (Z.to_nat indexSize) (data f);
     pos := Z.to_nat indexSize; closed := false;
     isCloser := isCloser f; isReaderAt := isReaderAt f |}.

(** The writer [w] with [b] pending in its buffer and offset [o]. *)
Definition buffered (w : Writer) (b : bufioWriter) (o : Z) : Writer :=
  {| writer := writer w; entries := entries w; finalizeOnce := finalizeOnce w;
     bufferedWriter := Some b; bufferedOffset := o |}.

(** The index the outer loop of [finalize] fills in, from offset [o] on. *)
Fixpoint layTables (E : list (list entry)) (o : Z) (buckets : list nat)
    (idx : index) : index :=
  match buckets with
  | [] => idx
  | i :: rest =>
      layTables E (o + 8 * len (nth i E [])) rest
        (upd i {| table_offset := uint32 o;
                  table_length := uint32 (len (nth i E [])) |} idx)
  end.

(** The store after [finalize]: the pending bytes [b] flushed at the cursor,
    then the header written over the first bytes. *)
Definition finalStore (f : File) (b : list byte) (idx : index) : File :=
  {| data := write_at (write_at (data f) (pos f) b) 0 (encodeIndex idx);
     pos := length (encodeIndex idx); closed := false;
     isCloser := isCloser f; isReaderAt := isReaderAt f |}.

(** A reader on a store finished after the given [Put]s: the handle is open,
    the index is the one [finalize] computes, no offset went past the
    ceiling and the bytes are header, records and tables. *)
Record Finished (records : list record) (cdb : CDB) : Prop := {
  fin_open : closed (reader cdb) = false;
  fin_index : cdb_index cdb = indexOf records;
  fin_fits :
    indexSize + totalSize records +
    8 * lenSum (entriesOf records) (seq 0 256) <= maxUint32;
  fin_bytes : holds (data (reader cdb)) 0 (storeBytes records)
}.

(** The probe of [Get] seen on the placed records of a bucket, listed in the
    order the slots are visited: stop on a hash of 0, return the value of
    the first record with the hash and the bytes of [key], else go on. *)
Fixpoint scan (key : list byte) (l : list (Z * record)) : probeExit :=
  match l with
  | [] => FullCycle
  | (_, (k, v)) :: rest =>
      if keyHash k =? 0 then EmptySlot
      else if (keyHash k =? keyHash key) && (if bytes_eq_dec k key then true else false)
           then Hit v
           else scan key rest
  end.

(** The placed records of the bucket of [key]. *)
Definition bucketFor (records : list record) (key : list byte)
  : list (Z * record) :=
  bucket (bucketOf key) (placed indexSize records).

(** The slot [Get(key)] starts from. *)
Definition startSlot (records : list record) (key : list byte) : nat :=
  Z.to_nat (Z.shiftr (keyHash key) 8 mod len (bucketFor records key)).

(** The bucket of [key] in the order [Get(key)] visits its slots. *)
Definition probed (records : list record) (key : list byte)
  : list (Z * record) :=
  skipn (startSlot records key) (bucketFor records key) ++
  firstn (startSlot records key) (bucketFor records key).


(** ** The earlier revision of [Put] in writer.go (no buffer)

    It asks the store for its position with [Seek(0, os.SEEK_CUR)], checks
    it against the ceiling before writing, and writes to [cdb.writer]. *)

Definition SeekCur : M File Z := fun f =>
  if closed f then (f, Err ErrClosed) else (f, Ok (Z.of_nat (pos f))).

Definition writeTuple_v0 (first second : Z) : M File unit :=
  (_ <- File_Write (LittleEndian.PutUint32 first ++
                    LittleEndian.PutUint32 second) ;; ret tt)%go.

Definition Put_v0 (key value : list byte) : M Writer unit :=
  (off <- onWriter SeekCur ;;
   if off >? maxUint32 then fail ErrTooMuchData
   else
     h <- ret (keyHash key) ;;
     tbl <- ret (Z.to_nat (Z.land h 255)) ;;
     modify (fun cdb =>
       set_entries
         (upd tbl (nth tbl (entries cdb) [] ++
                   [{| hash := h; offset := uint32 off |}]) (entries cdb))
         cdb) ;;;
     onWriter (writeTuple_v0 (uint32 (len key)) (uint32 (len value))) ;;;
     _ <- onWriter (File_Write key) ;;
     _ <- onWriter (File_Write value) ;;
     ret tt)%go.

(** ** Fixtures, after the tests *)

Definition bytes (s : string) : list byte := list_byte_of_string s.

(** An empty file, opened for reading and writing. *)
Definition emptyFile : File :=
  {| data := []; pos := 0; closed := false;
     isCloser := true; isReaderAt := true |}.

(** Some of [expectedRecords]: 'playwright' collides with 'snush'. *)
Definition sampleRecords : list record :=
  [(bytes "foo", bytes "bar"); (bytes "playwright", bytes "wow");
   (bytes "snush", bytes "collision!"); (bytes "", bytes "empty_key");
   (bytes "empty_value", bytes "")].

(** A key whose hash is 0 and a key of the same bucket (hash 5861376). *)
Definition zeroKey : list byte := bytes "9ydxukg".

Definition eclipsedRecords : list record :=
  [(zeroKey, bytes "v0"); (bytes "pu", bytes "v1")].

(** The reader [build] returns on [emptyFile]. *)
Definition storeOf (how : finishing) (records : list record) : CDB :=
  match build how emptyFile records with
  | Ok cdb => cdb
  | _ => {| reader := emptyFile; cdb_index := zeroIndex |}
  end.

(** ** More of hash.go *)

(** [binary.LittleEndian.PutUint32(b, v)] on a slice that is kept: the
    first four bytes of [b] are overwritten; on a shorter [b] it panics. *)
Definition PutUint32_at (b : list byte) (v : Z) : result (list byte) :=
  if (length b <? 4)%nat then Panic
  else Ok (LittleEndian.PutUint32 v ++ skipn 4 b).

(** [Sum(b)]: [digest := make([]byte, 4)], [PutUint32(b, h.Sum32())],
    [return append(b, digest...)]. *)
Definition cdbHash_Sum (h : cdbHash) (b : list byte) : result (list byte) :=
  let digest := repeat x00 4 in
  match PutUint32_at b (Sum32 h) with
  | Ok b' => Ok (b' ++ digest)
  | Err e => Err e
  | Panic => Panic
  end.

(** [Reset()] *)
Definition cdbHash_Reset (h : cdbHash) : cdbHash := {| digest32 := start |}.

(** ** More of util.go

    [readAt] of the revision whose reader may hold the whole file in memory:
    [readerBytes] is [None] for the nil slice.  The slice expression
    [readerBytes[offset : offset+size]] computes its upper bound in
    [uint32] and panics when the bounds are out of order or past the end
    (the capacity of the slice is taken to be its length). *)
Definition readAt (reader : File) (readerBytes : option (list byte))
    (offset size : Z) : result (list byte) :=
  match readerBytes with
  | None => ReadAt reader size offset
  | Some bs =>
      let hi := uint32 (offset + size) in
      if (hi <? offset) || (len bs <? hi) then Panic
      else Ok (firstn (Z.to_nat (hi - offset)) (skipn (Z.to_nat offset) bs))
  end.

(** [readTuple(offset)], the method of util.go, on top of [readAt]. *)
Definition readTuple_at (reader : File) (readerBytes : option (list byte))
    (offset : Z) : result (Z * Z) :=
  match readAt reader readerBytes offset 8 with
  | Ok tuple =>
      Ok (LittleEndian.Uint32 (firstn 4 tuple),
          LittleEndian.Uint32 (skipn 4 tuple))
  | Err e => Err e
  | Panic => Panic
  end.

(** ** The earlier revision of [Get]

    Its probe loop has the two exits on a slot ([slotHash == 0] and a key
    found) and no test on the slot being back where it started. *)
Fixpoint probe_v0 (fuel : nat) (cdb : CDB) (key : list byte) (h : Z)
    (tbl : table) (slot : Z) : option probeExit :=
  match fuel with
  | O => None
  | S fuel' =>
      let slotOffset := uint32 (table_offset tbl + uint32 (8 * slot)) in
      match readTuple (reader cdb) slotOffset with
      | Err e => Some (Fault e)
      | Panic => Some Crash
      | Ok (slotHash, off) =>
          let continue :=
            probe_v0 fuel' cdb key h tbl
              (uint32 (slot + 1) mod table_length tbl) in
          if slotHash =? 0 then Some EmptySlot
          else if slotHash =? h then
            match getValueAt cdb off key with
            | Err e => Some (Fault e)
            | Panic => Some Crash
            | Ok (Some value) => Some (Hit value)
            | Ok None => continue
            end
          else continue
      end
  end.

Definition Get_v0 (fuel : nat) (cdb : CDB) (key : list byte)
  : option (result (option (list byte))) :=
  let h := keyHash key in
  let tbl := nth (Z.to_nat (Z.land h 255)) (cdb_index cdb) zeroTable in
  if table_length tbl =? 0 then Some (Ok None)
  else
    match probe_v0 fuel cdb key h tbl (Z.shiftr h 8 mod table_length tbl) with
    | None => None
    | Some (Hit value) => Some (Ok (Some value))
    | Some EmptySlot => Some (Ok None)
    | Some FullCycle => Some (Ok None)
    | Some (Fault e) => Some (Err e)
    | Some Crash => Some Panic
    end.

(** A store that can be written and closed but not read: no [ReadAt]. *)
Definition writeOnlyFile : File :=
  {| data := []; pos := 0; closed := false;
     isCloser := true; isReaderAt := false |}.

(** A record too large for a database: its value has [2^32] bytes. *)
Definition oversized : record :=
  (bytes "k", repeat x00 (Z.to_nat (2 ^ 32))).

(** ** The earlier revision of the writer, continued

    The writer without a buffer has the fields [writer], [entries] and
    [finalizeOnce] only: [bufferedWriter] stays [None] and [bufferedOffset]
    0, and no function of this revision reads them. *)

Definition NewWriter_v0 (f : File) : result Writer :=
  match Seek0 f with
  | (f1, Ok _) =>
      match File_Write (repeat x00 (Z.to_nat indexSize)) f1 with
      | (f2, Ok _) =>
          Ok {| writer := f2; entries := repeat [] 256; finalizeOnce := false;
                bufferedWriter := None; bufferedOffset := 0 |}
      | (_, Err e) => Err e
      | (_, Panic) => Panic
      end
  | (_, Err e) => Err e
  | (_, Panic) => Panic
  end.

(** [for _, entry := range tableEntries { writeTuple(cdb.writer, ...) }] *)
Fixpoint writeEntries_v0 (tableEntries : list entry) : M Writer unit :=
  match tableEntries with
  | [] => ret tt
  | e :: rest =>
      (onWriter (writeTuple_v0 (hash e) (offset e)) ;;;
       writeEntries_v0 rest)%go
  end.

(** The outer loop of [finalize]: the position of the store is asked for
    and checked once per table, before the table is written. *)
Fixpoint writeTables_v0 (buckets : list nat) (idx : index) : M Writer index :=
  match buckets with
  | [] => ret idx
  | i :: rest =>
      (off <- onWriter SeekCur ;;
       if off >? maxUint32 then fail ErrTooMuchData
       else
         tableEntries <- gets (fun cdb => nth i (entries cdb) []) ;;
         idx' <- ret (upd i {| table_offset := uint32 off;
                               table_length := uint32 (len tableEntries) |} idx) ;;
         writeEntries_v0 tableEntries ;;;
         writeTables_v0 rest idx')%go
  end.

Definition finalize_v0 : M Writer index :=
  (idx <- writeTables_v0 (seq 0 256) zeroIndex ;;
   _ <- onWriter Seek0 ;;
   _ <- onWriter (File_Write (encodeIndex idx)) ;;
   ret idx)%go.

Definition finalizeOnce_Do_v0 : M Writer index := fun cdb =>
  if finalizeOnce cdb then (cdb, Ok zeroIndex)
  else finalize_v0 (set_finalizeOnce true cdb).

Definition Close_v0 : M Writer unit :=
  (_ <- finalizeOnce_Do_v0 ;;
   isC <- gets (fun cdb => isCloser (writer cdb)) ;;
   if isC then onWriter File_Close else ret tt)%go.

Definition Freeze_v0 : M Writer CDB :=
  (idx <- finalizeOnce_Do_v0 ;;
   f <- gets writer ;;
   if isReaderAt f then ret {| reader := f; cdb_index := idx |}
   else fail ErrInvalid)%go.

Fixpoint PutAll_v0 (records : list record) : M Writer unit :=
  match records with
  | [] => ret tt
  | (key, value) :: rest => (Put_v0 key value ;;; PutAll_v0 rest)%go
  end.

Definition finish_v0 (how : finishing) (w : Writer) : result CDB :=
  match how with
  | ByFreeze => snd (Freeze_v0 w)
  | ByClose =>
      match Close_v0 w with
      | (w', Ok _) => New (reopen (writer w'))
      | (_, Err e) => Err e
      | (_, Panic) => Panic
      end
  end.

Definition build_v0 (how : finishing) (f : File) (records : list record)
  : result CDB :=
  match NewWriter_v0 f with
  | Ok w =>
      match PutAll_v0 records w with
      | (w', Ok _) => finish_v0 how w'
      | (_, Err e) => Err e
      | (_, Panic) => Panic
      end
  | Err e => Err e
  | Panic => Panic
  end.

(** The store [f] after [bs] was written at its cursor. *)
Definition appendedTo (f : File) (bs : list byte) : File :=
  {| data := write_at (data f) (pos f) bs;
     pos := (pos f + length bs)%nat; closed := false;
     isCloser := isCloser f; isReaderAt := isReaderAt f |}.

(** The writer without a buffer on store [f] after the given [Put]s. *)
Definition writerAfter_v0 (f : File) (records : list record) (once : bool)
  : Writer :=
  {| writer := appendedTo f (concat (map encodeRecord records));
     entries := entriesOf records;
     finalizeOnce := once;
     bufferedWriter := None;
     bufferedOffset := 0 |}.

(** ** [Close] of the reader

    [if closer, ok := cdb.reader.(io.Closer); ok { return closer.Close() }
    else { return nil }] *)
Definition CDB_Close : M CDB unit := fun cdb =>
  if isCloser (reader cdb) then
    let (f, r) := File_Close (reader cdb) in
    ({| reader := f; cdb_index := cdb_index cdb |}, r)
  else (cdb, Ok tt).

(* ================================================================= *)
(** * Proofs *)

(** ** Words and bytes *)

Lemma uint32_range (z : Z) : 0 <= uint32 z < 2 ^ 32.
Proof. unfold uint32. apply Z.mod_pos_bound. reflexivity. Qed.

Lemma uint32_small (z : Z) : 0 <= z <= maxUint32 -> uint32 z = z.
Proof. unfold uint32, maxUint32. intros H. apply Z.mod_small. lia. Qed.

Lemma Z_of_byte_range (b : byte) : 0 <= Z_of_byte b < 256.
Proof.
  unfold Z_of_byte. pose proof (Byte.to_N_bounded b). lia.
Qed.

Lemma Z_of_byte_of_Z (z : Z) : Z_of_byte (byte_of_Z z) = z mod 256.
Proof.
  unfold Z_of_byte, byte_of_Z.
  pose proof (Z.mod_pos_bound z 256 eq_refl) as Hr.
  destruct (Byte.of_N (Z.to_N (z mod 256))) as [b|] eqn:E.
  - apply Byte.to_of_N in E. rewrite E. lia.
  - apply Byte.of_N_None_iff in E. lia.
Qed.

Lemma len_app {A : Type} (a b : list A) : len (a ++ b) = len a + len b.
Proof. unfold len. rewrite length_app. lia. Qed.

Lemma len_nonneg {A : Type} (a : list A) : 0 <= len a.
Proof. unfold len. lia. Qed.

Lemma PutUint32_length (v : Z) : length (LittleEndian.PutUint32 v) = 4%nat.
Proof. reflexivity. Qed.

Lemma Uint32_PutUint32 (v : Z) :
  LittleEndian.Uint32 (LittleEndian.PutUint32 v) = uint32 v.
Proof.
  unfold LittleEndian.Uint32, LittleEndian.PutUint32, uint32.
  rewrite !Z_of_byte_of_Z.
  change 256 with (2 ^ 8).
  apply Z.bits_inj'. intros n Hn.
  rewrite !Z.lor_spec, !Z.shiftl_spec by lia.
  rewrite !Z.testbit_mod_pow2; [|lia..].
  destruct (Z.ltb_spec n 8); destruct (Z.ltb_spec (n - 8) 8);
    destruct (Z.ltb_spec (n - 16) 8); destruct (Z.ltb_spec (n - 24) 8);
    destruct (Z.ltb_spec n 32); try lia; simpl;
    rewrite ?orb_false_r;
    rewrite ?(Z.testbit_neg_r _ (n - 8)), ?(Z.testbit_neg_r _ (n - 16)),
      ?(Z.testbit_neg_r _ (n - 24)) by lia;
    rewrite ?orb_false_r; try reflexivity;
    rewrite Z.shiftr_spec by lia; f_equal; lia.
Qed.

(** ** The hash *)

Lemma lxor_byte_range (a : Z) (b : byte) :
  0 <= a < 2 ^ 32 -> 0 <= Z.lxor a (Z_of_byte b) < 2 ^ 32.
Proof.
  intros Ha. pose proof (Z_of_byte_range b) as Hb.
  assert (E : Z.lxor a (Z_of_byte b) = Z.lxor a (Z_of_byte b) mod 2 ^ 32).
  { apply Z.bits_inj'. intros n Hn.
    rewrite Z.testbit_mod_pow2 by lia.
    destruct (Z.ltb_spec n 32); [reflexivity|].
    rewrite Z.lxor_spec.
    rewrite <- (Z.mod_small a (2 ^ 32)) by lia.
    rewrite <- (Z.mod_small (Z_of_byte b) (2 ^ 32)) by lia.
    rewrite !Z.mod_pow2_bits_high by lia. reflexivity. }
  rewrite E. apply Z.mod_pos_bound. reflexivity.
Qed.

Lemma hashStep_range (v : Z) (b : byte) : 0 <= hashStep v b < 2 ^ 32.
Proof. unfold hashStep. apply lxor_byte_range, uint32_range. Qed.

Lemma CDBHashSum32Update_range (data : list byte) (v : Z) :
  0 <= v < 2 ^ 32 -> 0 <= CDBHashSum32Update data v < 2 ^ 32.
Proof.
  revert v. induction data as [|b rest IH]; intros v Hv; simpl.
  - exact Hv.
  - apply IH, hashStep_range.
Qed.

Lemma keyHash_range (key : list byte) : 0 <= keyHash key < 2 ^ 32.
Proof.
  unfold keyHash, Sum32, cdbHash_Write, newCDBHash; simpl.
  apply CDBHashSum32Update_range. unfold start. lia.
Qed.

Lemma CDBHashSum32Update_app (a b : list byte) (v : Z) :
  CDBHashSum32Update (a ++ b) v =
  CDBHashSum32Update b (CDBHashSum32Update a v).
Proof.
  revert v. induction a as [|x a IH]; intros v; simpl; [reflexivity|apply IH].
Qed.

Lemma CDBHashSum32Update_fold (data : list byte) (v : Z) :
  CDBHashSum32Update data v = fold_left hashStep data v.
Proof.
  revert v. induction data as [|b rest IH]; intros v; simpl; [reflexivity|apply IH].
Qed.

Lemma hashStep_spec (v : Z) (b : byte) :
  hashStep v b = Z.lxor ((v * 32 + v) mod 2 ^ 32) (Z_of_byte b).
Proof.
  unfold hashStep, uint32. rewrite Z.shiftl_mul_pow2 by lia.
  change (2 ^ 5) with 32. rewrite Zplus_mod_idemp_l. reflexivity.
Qed.

Lemma specHash_fold (data : list byte) (v : Z) :
  fold_left (fun v b => Z.lxor ((v * 32 + v) mod 2 ^ 32) (Z_of_byte b)) data v =
  fold_left hashStep data v.
Proof.
  revert v. induction data as [|b rest IH]; intros v; simpl; [reflexivity|].
  rewrite IH, hashStep_spec. reflexivity.
Qed.

Lemma cdbHash_Write_chunks (chunks : list (list byte)) (h : cdbHash) :
  Sum32 (fold_left cdbHash_Write chunks h) =
  CDBHashSum32Update (concat chunks) (digest32 h).
Proof.
  revert h. induction chunks as [|c cs IH]; intros h; simpl; [reflexivity|].
  rewrite IH, CDBHashSum32Update_app. reflexivity.
Qed.

(** C8: the hash is the function of the specification (5381, then
    [v = ((v << 5) + v) XOR b] modulo [2^32] for each byte), it is the one
    [Put] and [Get] use and the one of the earlier revision, its value is a
    [uint32], the two test vectors have the stated digests, and feeding the
    input chunk by chunk gives the digest of the whole input. *)
Theorem C8_hash_function :
  (forall data, CDBHashSum32 data = specHash data) /\
  (forall data, keyHash data = specHash data) /\
  (forall data, cdbHash_v0 data = specHash data) /\
  (forall data, 0 <= CDBHashSum32 data < 2 ^ 32) /\
  CDBHashSum32 (list_byte_of_string "foo bar baz") = 776976811 /\
  CDBHashSum32
    (list_byte_of_string "The quick brown fox jumped over the lazy dog")
    = 3538394712 /\
  (forall a b v,
      CDBHashSum32Update (a ++ b) v =
      CDBHashSum32Update b (CDBHashSum32Update a v)) /\
  (forall chunks,
      Sum32 (fold_left cdbHash_Write chunks newCDBHash) =
      CDBHashSum32 (concat chunks)).
Proof.
  assert (H0 : forall data, CDBHashSum32 data = specHash data).
  { intros data. unfold CDBHashSum32, specHash.
    rewrite CDBHashSum32Update_fold, specHash_fold. reflexivity. }
  split; [exact H0|].
  split; [intros data; rewrite <- H0; reflexivity|].
  split.
  { intros data. rewrite <- H0. unfold cdbHash_v0, CDBHashSum32.
    symmetry. apply CDBHashSum32Update_fold. }
  split.
  { intros data. apply CDBHashSum32Update_range. unfold start. lia. }
  split; [vm_compute; reflexivity|].
  split; [vm_compute; reflexivity|].
  split.
  - intros. apply CDBHashSum32Update_app.
  - intros chunks. rewrite cdbHash_Write_chunks. reflexivity.
Qed.


(** ** Lists *)

Lemma firstn_length_app {A : Type} (a b : list A) :
  firstn (length a) (a ++ b) = a.
Proof. induction a as [|x a IH]; simpl; [reflexivity|now rewrite IH]. Qed.

Lemma skipn_length_app {A : Type} (a b : list A) :
  skipn (length a) (a ++ b) = b.
Proof. induction a as [|x a IH]; simpl; auto. Qed.

Lemma skipn_nth_cons {A : Type} (d : A) (l : list A) (i : nat) :
  (i < length l)%nat -> skipn i l = nth i l d :: skipn (S i) l.
Proof.
  revert i. induction l as [|x l IH]; intros i Hi; simpl in Hi; [lia|].
  destruct i as [|i]; [reflexivity|].
  simpl. apply IH. lia.
Qed.

Lemma upd_length {A : Type} (i : nat) (x : A) (l : list A) :
  length (upd i x l) = length l.
Proof.
  revert i. induction l as [|y l IH]; intros [|i]; simpl; auto.
Qed.

Lemma nth_upd {A : Type} (d : A) (i j : nat) (x : A) (l : list A) :
  (i < length l)%nat ->
  nth j (upd i x l) d = if Nat.eqb j i then x else nth j l d.
Proof.
  revert i j. induction l as [|y l IH]; intros i j Hi; simpl in Hi; [lia|].
  destruct i as [|i], j as [|j]; simpl; auto.
  apply IH. lia.
Qed.

Lemma nth_map_seq {A : Type} (d : A) (F : nat -> A) (n i : nat) :
  (i < n)%nat -> nth i (map F (seq 0 n)) d = F i.
Proof.
  intros Hi.
  rewrite (nth_indep _ d (F n)) by now rewrite length_map, length_seq.
  rewrite (map_nth F). now rewrite seq_nth.
Qed.

Lemma map_nth_seq {A : Type} (d : A) (l : list A) :
  map (fun i => nth i l d) (seq 0 (length l)) = l.
Proof.
  apply (nth_ext _ _ d d).
  - now rewrite length_map, length_seq.
  - intros n Hn. rewrite length_map, length_seq in Hn.
    now rewrite nth_map_seq.
Qed.

(** ** Bytes held by a store *)

Lemma holds_app (d : list byte) (off : Z) (a b : list byte) :
  holds d off (a ++ b) -> holds d off a /\ holds d (off + len a) b.
Proof.
  intros (pre & post & -> & <-). split.
  - exists pre, (b ++ post). now rewrite <- app_assoc.
  - exists (pre ++ a), post. now rewrite len_app, <- !app_assoc.
Qed.

Lemma holds_nonneg (d : list byte) (off : Z) (bs : list byte) :
  holds d off bs -> 0 <= off /\ off + len bs <= len d.
Proof.
  intros (pre & post & -> & <-). rewrite !len_app.
  pose proof (len_nonneg pre). pose proof (len_nonneg post). lia.
Qed.

Lemma holds_concat_nth (d : list byte) (off : Z) (l : list (list byte)) (i : nat) :
  holds d off (concat l) -> (i < length l)%nat ->
  holds d (off + len (concat (firstn i l))) (nth i l []).
Proof.
  intros H Hi. rewrite <- (firstn_skipn i l) in H.
  rewrite concat_app in H. apply holds_app in H as [_ H].
  rewrite (skipn_nth_cons [] l i Hi) in H. simpl in H.
  now apply holds_app in H as [H _].
Qed.

Lemma ReadAt_holds (f : File) (off : Z) (bs : list byte) :
  closed f = false -> holds (data f) off bs -> ReadAt f (len bs) off = Ok bs.
Proof.
  intros Hc H. pose proof (holds_nonneg _ _ _ H) as Hb.
  destruct H as (pre & post & Hd & Hp).
  unfold ReadAt. rewrite Hc.
  destruct (Z.eqb_spec (len bs) 0) as [E|E].
  - destruct bs; [reflexivity|]. unfold len in E. simpl in E. lia.
  - destruct (Z.leb_spec (off + len bs) (len (data f))); [|lia].
    rewrite Hd, <- Hp. unfold len. rewrite !Nat2Z.id.
    now rewrite skipn_length_app, firstn_length_app.
Qed.

Lemma readTuple_holds (f : File) (off x y : Z) :
  closed f = false ->
  holds (data f) off (LittleEndian.PutUint32 x ++ LittleEndian.PutUint32 y) ->
  readTuple f off = Ok (uint32 x, uint32 y).
Proof.
  intros Hc H. unfold readTuple.
  change 8 with (len (LittleEndian.PutUint32 x ++ LittleEndian.PutUint32 y)).
  rewrite (ReadAt_holds f off _ Hc H).
  change 4%nat with (length (LittleEndian.PutUint32 x)).
  rewrite firstn_length_app, skipn_length_app, !Uint32_PutUint32.
  reflexivity.
Qed.

(** ** Writing to the store *)

Lemma write_at_app (a b p : list byte) :
  write_at (a ++ b) (length a) p = a ++ p ++ skipn (length p) b.
Proof.
  unfold write_at. rewrite firstn_length_app, length_app.
  replace (length a - (length a + length b))%nat with 0%nat by lia. simpl.
  rewrite Nat.add_comm, <- skipn_skipn, skipn_length_app. reflexivity.
Qed.

Lemma write_at_0 (d p : list byte) : write_at d 0 p = p ++ skipn (length p) d.
Proof. apply (write_at_app [] d p). Qed.


(** ** The writer: [NewWriter] and [Put] *)

Lemma bucketOf_lt (key : list byte) : (bucketOf key < 256)%nat.
Proof.
  unfold bucketOf. change 255 with (Z.ones 8).
  rewrite Z.land_ones by lia.
  pose proof (Z.mod_pos_bound (keyHash key) (2 ^ 8) eq_refl). lia.
Qed.

Lemma recordSize_pos (r : record) : 8 <= recordSize r.
Proof.
  unfold recordSize.
  pose proof (len_nonneg (fst r)). pose proof (len_nonneg (snd r)). lia.
Qed.

Lemma encodeRecord_len (r : record) : len (encodeRecord r) = recordSize r.
Proof.
  unfold encodeRecord, recordSize. rewrite !len_app.
  change (len (LittleEndian.PutUint32 (uint32 (len (fst r))))) with 4.
  change (len (LittleEndian.PutUint32 (uint32 (len (snd r))))) with 4. lia.
Qed.

Lemma totalSize_nonneg (l : list record) : 0 <= totalSize l.
Proof.
  induction l as [|r l IH]; [reflexivity|].
  change (totalSize (r :: l)) with (recordSize r + totalSize l).
  pose proof (recordSize_pos r). lia.
Qed.

Lemma totalSize_cons (r : record) (l : list record) :
  totalSize (r :: l) = recordSize r + totalSize l.
Proof. reflexivity. Qed.

Lemma totalSize_app (a b : list record) :
  totalSize (a ++ b) = totalSize a + totalSize b.
Proof.
  induction a as [|r a IH]; [reflexivity|].
  cbn [app]. rewrite !totalSize_cons. lia.
Qed.

Lemma placed_app (off : Z) (a b : list record) :
  placed off (a ++ b) = placed off a ++ placed (off + totalSize a) b.
Proof.
  revert off. induction a as [|r a IH]; intros off.
  - simpl. now rewrite Z.add_0_r.
  - cbn [app]. rewrite totalSize_cons. cbn [placed]. rewrite IH.
    now rewrite Z.add_assoc.
Qed.

Lemma Put_buffered (key value : list byte) (w : Writer) (b : bufioWriter) :
  bufferedWriter w = Some b ->
  Put key value w =
  ({| writer := writer w;
      entries :=
        upd (bucketOf key)
          (nth (bucketOf key) (entries w) [] ++
           [{| hash := keyHash key; offset := uint32 (bufferedOffset w) |}])
          (entries w);
      finalizeOnce := finalizeOnce w;
      bufferedWriter := Some (b ++ encodeRecord (key, value));
      bufferedOffset := bufferedOffset w + recordSize (key, value) |},
   if bufferedOffset w + recordSize (key, value) >? maxUint32
   then Err ErrTooMuchData else Ok tt).
Proof.
  intros Hb.
  unfold Put, bind, ret, gets, modify, fail, onBuffered, writeTuple, bufio_Write,
    set_entries, set_bufferedWriter, set_bufferedOffset.
  cbn [bufferedWriter bufferedOffset entries writer finalizeOnce].
  rewrite Hb. unfold bind, ret.
  cbn [bufferedWriter bufferedOffset entries writer finalizeOnce].
  unfold recordSize, encodeRecord, bucketOf. cbn [fst snd].
  rewrite <- !app_assoc.
  destruct (bufferedOffset w + (8 + len key + len value) >? maxUint32);
    reflexivity.
Qed.


Lemma entriesOf_length (l : list record) : length (entriesOf l) = 256%nat.
Proof. unfold entriesOf. now rewrite length_map, length_seq. Qed.

Lemma nth_entriesOf (l : list record) (i : nat) :
  (i < 256)%nat ->
  nth i (entriesOf l) [] = map entryOf (bucket i (placed indexSize l)).
Proof. intros Hi. unfold entriesOf. now rewrite nth_map_seq. Qed.

Lemma entriesOf_snoc (l : list record) (key value : list byte) :
  entriesOf (l ++ [(key, value)]) =
  upd (bucketOf key)
    (nth (bucketOf key) (entriesOf l) [] ++
     [{| hash := keyHash key; offset := uint32 (indexSize + totalSize l) |}])
    (entriesOf l).
Proof.
  pose proof (bucketOf_lt key) as Ht.
  apply (nth_ext _ _ [] []).
  - now rewrite upd_length, !entriesOf_length.
  - intros n Hn. rewrite entriesOf_length in Hn.
    rewrite nth_upd by now rewrite entriesOf_length.
    rewrite !nth_entriesOf by assumption.
    rewrite placed_app. unfold bucket at 1. rewrite filter_app, map_app.
    simpl. fold (bucket n (placed indexSize l)).
    rewrite (Nat.eqb_sym n).
    destruct (Nat.eqb_spec (bucketOf key) n) as [->|Hne]; simpl.
    + reflexivity.
    + now rewrite app_nil_r.
Qed.

Lemma Put_writerAfter (f : File) (l : list record) (key value : list byte) :
  Put key value (writerAfter f l) =
  (writerAfter f (l ++ [(key, value)]),
   if indexSize + totalSize (l ++ [(key, value)]) >? maxUint32
   then Err ErrTooMuchData else Ok tt).
Proof.
  rewrite (Put_buffered key value _ (concat (map encodeRecord l))) by reflexivity.
  unfold writerAfter. cbn [writer entries finalizeOnce bufferedWriter bufferedOffset].
  rewrite entriesOf_snoc, map_app, concat_app, totalSize_app.
  cbn [map concat]. rewrite app_nil_r, totalSize_cons.
  change (totalSize []) with 0.
  rewrite !Z.add_0_r, !Z.add_assoc. reflexivity.
Qed.


Lemma PutAll_writerAfter (f : File) (l rs : list record) (w' : Writer) :
  indexSize + totalSize l <= maxUint32 ->
  PutAll rs (writerAfter f l) = (w', Ok tt) ->
  w' = writerAfter f (l ++ rs) /\ indexSize + totalSize (l ++ rs) <= maxUint32.
Proof.
  revert l. induction rs as [|[k v] rs IH]; intros l Hl H; simpl in H.
  - unfold ret in H. inversion H; subst. now rewrite app_nil_r.
  - unfold bind in H. rewrite Put_writerAfter in H.
    destruct (Z.gtb_spec (indexSize + totalSize (l ++ [(k, v)])) maxUint32)
      as [Hgt|Hle]; [discriminate|].
    apply IH in H; [|exact Hle].
    now rewrite <- app_assoc in H.
Qed.

(** The other direction: [Put]s that fit all succeed. *)
Lemma PutAll_fits (f : File) (l rs : list record) :
  indexSize + totalSize (l ++ rs) <= maxUint32 ->
  PutAll rs (writerAfter f l) = (writerAfter f (l ++ rs), Ok tt).
Proof.
  revert l. induction rs as [|[k v] rs IH]; intros l Hfit; simpl.
  - now rewrite app_nil_r.
  - unfold bind. rewrite Put_writerAfter.
    pose proof (totalSize_nonneg rs).
    rewrite !totalSize_app, totalSize_cons in Hfit.
    destruct (Z.gtb_spec (indexSize + totalSize (l ++ [(k, v)])) maxUint32)
      as [Hgt|Hle].
    + rewrite totalSize_app, totalSize_cons in Hgt.
      change (totalSize []) with 0 in Hgt. lia.
    + rewrite IH; [now rewrite <- app_assoc|].
      rewrite <- app_assoc. cbn [app]. rewrite totalSize_app, totalSize_cons. lia.
Qed.

Lemma NewWriter_open (f : File) :
  closed f = false -> NewWriter f = Ok (writerAfter (freshStore f) []).
Proof.
  intros Hc. unfold NewWriter, Seek0, File_Write. rewrite Hc. cbn [closed].
  cbn [data pos isCloser isReaderAt].
  rewrite write_at_0, repeat_length. reflexivity.
Qed.

Lemma NewWriter_closed (f : File) :
  closed f = true -> NewWriter f = Err ErrClosed.
Proof. intros Hc. unfold NewWriter, Seek0. now rewrite Hc. Qed.


(** ** The writer: [finalize] *)

Lemma len_nil_inv {A : Type} (l : list A) : len l = 0 -> l = [].
Proof. destruct l; [reflexivity|]. unfold len. simpl. lia. Qed.

Lemma len_cons {A : Type} (x : A) (l : list A) : len (x :: l) = 1 + len l.
Proof. unfold len. simpl length. lia. Qed.

Lemma buffered_self (w : Writer) (b : bufioWriter) :
  bufferedWriter w = Some b -> buffered w b (bufferedOffset w) = w.
Proof. destruct w. unfold buffered. simpl. now intros ->. Qed.

Lemma writeEntries_cons (e : entry) (rest : list entry) (w : Writer)
    (b : bufioWriter) :
  bufferedWriter w = Some b ->
  writeEntries (e :: rest) w =
  if bufferedOffset w + 8 >? maxUint32
  then (buffered w (b ++ encodeEntry e) (bufferedOffset w + 8),
        Err ErrTooMuchData)
  else writeEntries rest (buffered w (b ++ encodeEntry e) (bufferedOffset w + 8)).
Proof.
  intros Hb. cbn [writeEntries].
  unfold bind, ret, gets, modify, fail, onBuffered, writeTuple, bufio_Write,
    set_bufferedWriter, set_bufferedOffset.
  cbn [bufferedWriter bufferedOffset entries writer finalizeOnce].
  rewrite Hb. unfold bind, ret.
  cbn [bufferedWriter bufferedOffset entries writer finalizeOnce].
  unfold buffered, encodeEntry.
  destruct (bufferedOffset w + 8 >? maxUint32); reflexivity.
Qed.

Lemma writeEntries_ok (es : list entry) (w : Writer) (b : bufioWriter) :
  bufferedWriter w = Some b ->
  es = [] \/ bufferedOffset w + 8 * len es <= maxUint32 ->
  writeEntries es w =
  (buffered w (b ++ concat (map encodeEntry es)) (bufferedOffset w + 8 * len es),
   Ok tt).
Proof.
  revert w b. induction es as [|e rest IH]; intros w b Hb Hfit.
  - cbn [writeEntries map concat]. unfold ret.
    change (len (@nil entry)) with 0.
    now rewrite app_nil_r, Z.mul_0_r, Z.add_0_r, buffered_self.
  - destruct Hfit as [Hnil|Hfit]; [discriminate|].
    rewrite len_cons in Hfit. pose proof (len_nonneg rest).
    rewrite (writeEntries_cons e rest w b Hb).
    destruct (Z.gtb_spec (bufferedOffset w + 8) maxUint32); [lia|].
    rewrite (IH _ (b ++ encodeEntry e)); [|reflexivity|right; cbn [buffered bufferedOffset]; lia].
    unfold buffered. cbn [writer entries finalizeOnce bufferedOffset map concat].
    rewrite len_cons, <- app_assoc.
    replace (bufferedOffset w + 8 + 8 * len rest)
      with (bufferedOffset w + 8 * (1 + len rest)) by lia.
    reflexivity.
Qed.

Lemma writeEntries_overflow (es : list entry) (w : Writer) (b : bufioWriter) :
  bufferedWriter w = Some b ->
  es <> [] -> bufferedOffset w + 8 * len es > maxUint32 ->
  exists b' o',
    writeEntries es w = (buffered w b' o', Err ErrTooMuchData) /\
    o' > maxUint32.
Proof.
  revert w b. induction es as [|e rest IH]; intros w b Hb Hne Hover;
    [congruence|].
  rewrite (writeEntries_cons e rest w b Hb).
  destruct (Z.gtb_spec (bufferedOffset w + 8) maxUint32) as [Hgt|Hle].
  - exists (b ++ encodeEntry e), (bufferedOffset w + 8).
    split; [reflexivity|lia].
  - rewrite len_cons in Hover.
    destruct (IH (buffered w (b ++ encodeEntry e) (bufferedOffset w + 8))
                (b ++ encodeEntry e)) as (b' & o' & E & Ho').
    + reflexivity.
    + intros ->. change (len (@nil entry)) with 0 in Hover. lia.
    + cbn [buffered bufferedOffset]. lia.
    + exists b', o'. now rewrite E.
Qed.

Lemma lenSum_nonneg (E : list (list entry)) (buckets : list nat) :
  0 <= lenSum E buckets.
Proof.
  induction buckets as [|i rest IH]; [reflexivity|].
  change (lenSum E (i :: rest)) with (len (nth i E []) + lenSum E rest).
  pose proof (len_nonneg (nth i E [])). lia.
Qed.

Lemma lenSum_cons (E : list (list entry)) (i : nat) (rest : list nat) :
  lenSum E (i :: rest) = len (nth i E []) + lenSum E rest.
Proof. reflexivity. Qed.

Lemma lenSum_app (E : list (list entry)) (a b : list nat) :
  lenSum E (a ++ b) = lenSum E a + lenSum E b.
Proof.
  induction a as [|i a IH]; [reflexivity|].
  cbn [app]. rewrite !lenSum_cons, IH. lia.
Qed.

Lemma writeTables_cons (i : nat) (rest : list nat) (idx : index) (w : Writer) :
  writeTables (i :: rest) idx w =
  bind (writeEntries (nth i (entries w) []))
    (fun _ => writeTables rest
       (upd i {| table_offset := uint32 (bufferedOffset w);
                 table_length := uint32 (len (nth i (entries w) [])) |} idx)) w.
Proof. reflexivity. Qed.

Lemma writeTables_ok (buckets : list nat) (idx : index) (w : Writer)
    (b : bufioWriter) :
  bufferedWriter w = Some b ->
  lenSum (entries w) buckets = 0 \/
  bufferedOffset w + 8 * lenSum (entries w) buckets <= maxUint32 ->
  writeTables buckets idx w =
  (buffered w (b ++ concat (map (encodeTable (entries w)) buckets))
     (bufferedOffset w + 8 * lenSum (entries w) buckets),
   Ok (layTables (entries w) (bufferedOffset w) buckets idx)).
Proof.
  revert idx w b. induction buckets as [|i rest IH]; intros idx w b Hb Hfit.
  - cbn [writeTables map concat layTables]. unfold ret.
    change (lenSum (entries w) []) with 0.
    now rewrite app_nil_r, Z.mul_0_r, Z.add_0_r, buffered_self.
  - rewrite lenSum_cons in Hfit.
    pose proof (len_nonneg (nth i (entries w) [])) as H1.
    pose proof (lenSum_nonneg (entries w) rest) as H2.
    rewrite writeTables_cons. unfold bind.
    rewrite (writeEntries_ok _ w b Hb).
    2:{ destruct Hfit as [Hz|Hfit]; [left; apply len_nil_inv; lia|right; lia]. }
    rewrite (IH _ _ (b ++ concat (map encodeEntry (nth i (entries w) []))));
      [|reflexivity|cbn [buffered entries bufferedOffset]; lia].
    unfold buffered.
    cbn [writer entries finalizeOnce bufferedOffset map concat layTables].
    rewrite lenSum_cons, <- app_assoc.
    replace (bufferedOffset w + 8 * len (nth i (entries w) []) +
             8 * lenSum (entries w) rest)
      with (bufferedOffset w +
            8 * (len (nth i (entries w) []) + lenSum (entries w) rest)) by lia.
    reflexivity.
Qed.

Lemma writeTables_overflow (buckets : list nat) (idx : index) (w : Writer)
    (b : bufioWriter) :
  bufferedWriter w = Some b ->
  0 < lenSum (entries w) buckets ->
  bufferedOffset w + 8 * lenSum (entries w) buckets > maxUint32 ->
  exists b' o',
    writeTables buckets idx w = (buffered w b' o', Err ErrTooMuchData) /\
    o' > maxUint32.
Proof.
  revert idx w b. induction buckets as [|i rest IH]; intros idx w b Hb Hpos Hover.
  - change (lenSum (entries w) []) with 0 in Hpos. lia.
  - rewrite lenSum_cons in Hpos, Hover.
    pose proof (len_nonneg (nth i (entries w) [])) as H1.
    pose proof (lenSum_nonneg (entries w) rest) as H2.
    rewrite writeTables_cons. unfold bind.
    assert (C : (nth i (entries w) [] = [] \/
                 bufferedOffset w + 8 * len (nth i (entries w) []) <= maxUint32) \/
                (nth i (entries w) [] <> [] /\
                 bufferedOffset w + 8 * len (nth i (entries w) []) > maxUint32)).
    { destruct (nth i (entries w) []) as [|e es]; [left; left; reflexivity|].
      destruct (Z_le_gt_dec (bufferedOffset w + 8 * len (e :: es)) maxUint32);
        [left; right; assumption|right; split; [discriminate|assumption]]. }
    destruct C as [Hok|[Hne Hgt]].
    + rewrite (writeEntries_ok _ w b Hb Hok).
      destruct (IH (upd i {| table_offset := uint32 (bufferedOffset w);
                             table_length := uint32 (len (nth i (entries w) [])) |} idx)
                  (buffered w (b ++ concat (map encodeEntry (nth i (entries w) [])))
                     (bufferedOffset w + 8 * len (nth i (entries w) [])))
                  (b ++ concat (map encodeEntry (nth i (entries w) []))))
        as (b' & o' & E & Ho').
      * reflexivity.
      * cbn [buffered entries].
        destruct Hok as [Hnil|Hle]; [|lia].
        rewrite Hnil in Hpos. change (len (@nil entry)) with 0 in Hpos. lia.
      * cbn [buffered entries bufferedOffset]. lia.
      * exists b', o'. rewrite E. now split.
    + destruct (writeEntries_overflow (nth i (entries w) []) w b Hb Hne Hgt)
        as (b' & o' & E & Ho').
      exists b', o'. rewrite E. now split.
Qed.


Lemma layTables_length (E : list (list entry)) (o : Z) (buckets : list nat)
    (idx : index) :
  length (layTables E o buckets idx) = length idx.
Proof.
  revert o idx. induction buckets as [|i rest IH]; intros o idx;
    cbn [layTables]; [reflexivity|].
  now rewrite IH, upd_length.
Qed.

Lemma nth_layTables (E : list (list entry)) (n : nat) :
  forall (k : nat) (o : Z) (idx : index) (j : nat),
    (k + n <= length idx)%nat ->
    nth j (layTables E o (seq k n) idx) zeroTable =
    if (k <=? j)%nat && (j <? k + n)%nat
    then {| table_offset := uint32 (o + 8 * lenSum E (seq k (j - k)));
            table_length := uint32 (len (nth j E [])) |}
    else nth j idx zeroTable.
Proof.
  induction n as [|n IH]; intros k o idx j Hk.
  - cbn [seq layTables].
    destruct (Nat.leb_spec k j); destruct (Nat.ltb_spec j (k + 0)); cbn [andb];
      try reflexivity; lia.
  - cbn [seq layTables]. rewrite IH by (rewrite upd_length; lia).
    rewrite nth_upd by lia.
    destruct (Nat.leb_spec (S k) j); destruct (Nat.ltb_spec j (S k + n));
      destruct (Nat.leb_spec k j); destruct (Nat.ltb_spec j (k + S n));
      destruct (Nat.eqb_spec j k); cbn [andb]; try lia; try reflexivity.
    + replace (j - k)%nat with (S (j - S k)) by lia.
      cbn [seq]. rewrite lenSum_cons, Z.mul_add_distr_l, Z.add_assoc.
      reflexivity.
    + subst j. rewrite Nat.sub_diag. cbn [seq].
      change (lenSum E []) with 0. now rewrite Z.mul_0_r, Z.add_0_r.
Qed.

Lemma encodeIndex_length (idx : index) :
  length (encodeIndex idx) = (8 * length idx)%nat.
Proof.
  unfold encodeIndex. induction idx as [|t idx IH]; [reflexivity|].
  cbn [flat_map]. rewrite length_app, IH. cbn [length app LittleEndian.PutUint32].
  lia.
Qed.

Lemma flushAndDrop_buffered (w : Writer) (b : bufioWriter) :
  bufferedWriter w = Some b -> closed (writer w) = false ->
  flushAndDrop w =
  ({| writer := {| data := write_at (data (writer w)) (pos (writer w)) b;
                   pos := (pos (writer w) + length b)%nat; closed := false;
                   isCloser := isCloser (writer w);
                   isReaderAt := isReaderAt (writer w) |};
      entries := entries w; finalizeOnce := finalizeOnce w;
      bufferedWriter := None; bufferedOffset := bufferedOffset w |}, Ok tt).
Proof.
  intros Hb Hc. unfold flushAndDrop, File_Write. rewrite Hb, Hc. reflexivity.
Qed.

(** [finalize] on an open store whose tables fit. *)
Lemma finalize_ok (w : Writer) (b : bufioWriter) :
  bufferedWriter w = Some b -> closed (writer w) = false ->
  lenSum (entries w) (seq 0 256) = 0 \/
  bufferedOffset w + 8 * lenSum (entries w) (seq 0 256) <= maxUint32 ->
  let idx := layTables (entries w) (bufferedOffset w) (seq 0 256) zeroIndex in
  finalize w =
  ({| writer :=
        finalStore (writer w)
          (b ++ concat (map (encodeTable (entries w)) (seq 0 256))) idx;
      entries := entries w; finalizeOnce := finalizeOnce w;
      bufferedWriter := None;
      bufferedOffset :=
        bufferedOffset w + 8 * lenSum (entries w) (seq 0 256) |},
   Ok idx).
Proof.
  intros Hb Hc Hfit idx. unfold finalize, bind.
  rewrite (writeTables_ok _ _ w b Hb Hfit).
  rewrite (flushAndDrop_buffered (buffered w _ _) _ eq_refl) by exact Hc.
  unfold onWriter, Seek0, File_Write, set_writer, ret, finalStore.
  cbn [writer closed data pos isCloser isReaderAt entries finalizeOnce
       bufferedWriter bufferedOffset buffered].
  reflexivity.
Qed.

(** [finalize] when the tables do not fit. *)
Lemma finalize_overflow (w : Writer) (b : bufioWriter) :
  bufferedWriter w = Some b ->
  0 < lenSum (entries w) (seq 0 256) ->
  bufferedOffset w + 8 * lenSum (entries w) (seq 0 256) > maxUint32 ->
  exists b' o',
    finalize w = (buffered w b' o', Err ErrTooMuchData) /\ o' > maxUint32.
Proof.
  intros Hb Hpos Hover. unfold finalize, bind.
  destruct (writeTables_overflow _ zeroIndex w b Hb Hpos Hover)
    as (b' & o' & E & Ho').
  exists b', o'. now rewrite E.
Qed.

Lemma finalize_nil (w : Writer) :
  bufferedWriter w = None ->
  lenSum (entries w) (seq 0 256) = 0 ->
  snd (finalize w) = Panic.
Proof.
  intros Hb Hz. unfold finalize, bind.
  assert (G : forall buckets idx,
             lenSum (entries w) buckets = 0 ->
             writeTables buckets idx w =
             (w, Ok (layTables (entries w) (bufferedOffset w) buckets idx))).
  { induction buckets as [|i rest IH]; intros idx H0; [reflexivity|].
    rewrite lenSum_cons in H0.
    pose proof (len_nonneg (nth i (entries w) [])).
    pose proof (lenSum_nonneg (entries w) rest).
    assert (En : nth i (entries w) [] = []) by (apply len_nil_inv; lia).
    rewrite writeTables_cons. unfold bind. cbn [layTables]. rewrite En.
    cbn [writeEntries]. unfold ret. change (len (@nil entry)) with 0.
    rewrite Z.mul_0_r, Z.add_0_r. apply IH. lia. }
  rewrite G by exact Hz. unfold flushAndDrop. rewrite Hb. reflexivity.
Qed.


(** ** The finished store *)

Lemma layTables_indexOf (records : list record) :
  layTables (entriesOf records) (indexSize + totalSize records) (seq 0 256)
    zeroIndex = indexOf records.
Proof.
  apply (nth_ext _ _ zeroTable zeroTable).
  - rewrite layTables_length. unfold indexOf, zeroIndex.
    now rewrite repeat_length, length_map, length_seq.
  - intros n Hn. rewrite layTables_length in Hn.
    unfold zeroIndex in Hn. rewrite repeat_length in Hn.
    rewrite nth_layTables by (unfold zeroIndex; rewrite repeat_length; lia).
    unfold indexOf. rewrite nth_map_seq by assumption.
    destruct (Nat.leb_spec 0 n); [|lia].
    destruct (Nat.ltb_spec n (0 + 256)); [|lia].
    cbn [andb]. now rewrite Nat.sub_0_r.
Qed.

Lemma indexOf_length (records : list record) : length (indexOf records) = 256%nat.
Proof. unfold indexOf. now rewrite length_map, length_seq. Qed.

Lemma finalStore_holds (f : File) (b : list byte) (idx : index) :
  length idx = 256%nat ->
  holds (data (finalStore (freshStore f) b idx)) 0 (encodeIndex idx ++ b).
Proof.
  intros Hl. unfold finalStore, freshStore. cbn [data pos].
  rewrite <- (repeat_length x00 (Z.to_nat indexSize)) at 2.
  rewrite write_at_app, write_at_0.
  rewrite <- (repeat_length x00 (Z.to_nat indexSize)) at 1.
  replace (length (encodeIndex idx))
    with (length (repeat x00 (Z.to_nat indexSize))).
  2:{ rewrite encodeIndex_length, Hl, repeat_length. reflexivity. }
  rewrite skipn_length_app.
  exists [], (skipn (length b) (skipn (Z.to_nat indexSize) (data f))).
  split; [|reflexivity].
  cbn [app]. now rewrite <- !app_assoc.
Qed.

(** What [finalizeOnce.Do] does on a writer that has only seen [Put]s. *)
Lemma finalizeOnce_Do_writerAfter (f : File) (records : list record) :
  closed f = false ->
  indexSize + totalSize records +
  8 * lenSum (entriesOf records) (seq 0 256) <= maxUint32 ->
  finalizeOnce_Do (writerAfter (freshStore f) records) =
  ({| writer :=
        finalStore (freshStore f)
          (concat (map encodeRecord records) ++
           concat (map (encodeTable (entriesOf records)) (seq 0 256)))
          (indexOf records);
      entries := entriesOf records; finalizeOnce := true;
      bufferedWriter := None;
      bufferedOffset :=
        indexSize + totalSize records +
        8 * lenSum (entriesOf records) (seq 0 256) |},
   Ok (indexOf records)).
Proof.
  intros Hc Hfit. unfold finalizeOnce_Do. cbn [finalizeOnce writerAfter].
  rewrite (finalize_ok _ (concat (map encodeRecord records)));
    [|reflexivity|reflexivity|right; exact Hfit].
  cbn [set_finalizeOnce writerAfter writer entries finalizeOnce bufferedWriter
       bufferedOffset].
  now rewrite layTables_indexOf.
Qed.

Lemma finalizeOnce_Do_overflow (f : File) (records : list record) :
  indexSize + totalSize records +
  8 * lenSum (entriesOf records) (seq 0 256) > maxUint32 ->
  0 < lenSum (entriesOf records) (seq 0 256) ->
  exists w',
    finalizeOnce_Do (writerAfter f records) = (w', Err ErrTooMuchData) /\
    writer w' = f /\ finalizeOnce w' = true /\ bufferedOffset w' > maxUint32.
Proof.
  intros Hover Hpos. unfold finalizeOnce_Do. cbn [finalizeOnce writerAfter].
  destruct (finalize_overflow
              (set_finalizeOnce true (writerAfter f records))
              (concat (map encodeRecord records)) eq_refl Hpos Hover)
    as (b' & o' & E & Ho').
  eexists. split; [exact E|]. cbn. auto.
Qed.


Lemma uint32_idem (z : Z) : uint32 (uint32 z) = uint32 z.
Proof. unfold uint32. apply Z.mod_mod. lia. Qed.

Lemma skipn_encodeIndex (i : nat) (idx : index) :
  skipn (i * 8) (encodeIndex idx) = encodeIndex (skipn i idx).
Proof.
  revert idx. induction i as [|i IH]; intros idx; [reflexivity|].
  destruct idx as [|t idx]; [reflexivity|].
  cbn [skipn]. rewrite <- IH. reflexivity.
Qed.

Lemma decodeIndex_encodeIndex (idx : index) :
  length idx = 256%nat ->
  decodeIndex (encodeIndex idx) =
  map (fun t => {| table_offset := uint32 (table_offset t);
                   table_length := uint32 (table_length t) |}) idx.
Proof.
  intros Hl. apply (nth_ext _ _ zeroTable zeroTable).
  - unfold decodeIndex. now rewrite !length_map, length_seq.
  - intros n Hn. unfold decodeIndex in *.
    rewrite length_map, length_seq in Hn.
    rewrite nth_map_seq by assumption.
    rewrite (Nat.add_comm (n * 8) 4), <- skipn_skipn, skipn_encodeIndex.
    rewrite (skipn_nth_cons zeroTable idx n) by lia.
    change zeroTable with
      ((fun t => {| table_offset := uint32 (table_offset t);
                    table_length := uint32 (table_length t) |}) zeroTable) at 3.
    rewrite map_nth.
    unfold encodeIndex. cbn [flat_map].
    cbn [LittleEndian.PutUint32 app skipn firstn].
    rewrite <- !Uint32_PutUint32. reflexivity.
Qed.

Lemma decodeIndex_indexOf (records : list record) :
  decodeIndex (encodeIndex (indexOf records)) = indexOf records.
Proof.
  rewrite decodeIndex_encodeIndex by apply indexOf_length.
  unfold indexOf. rewrite map_map. apply map_ext. intros i.
  cbn [table_offset table_length]. now rewrite !uint32_idem.
Qed.

Lemma readIndex_holds (r : File) (idx : index) :
  closed r = false -> length idx = 256%nat ->
  holds (data r) 0 (encodeIndex idx) ->
  readIndex r = Ok (decodeIndex (encodeIndex idx)).
Proof.
  intros Hc Hl H. unfold readIndex.
  replace indexSize with (len (encodeIndex idx)).
  - now rewrite (ReadAt_holds r 0 _ Hc H).
  - unfold len. rewrite encodeIndex_length, Hl. reflexivity.
Qed.

(** Every finishing call on a writer that has only seen [Put]s that fit
    gives a reader on a store with the expected layout. *)
Lemma finish_writerAfter (how : finishing) (f : File) (records : list record) :
  closed f = false ->
  indexSize + totalSize records +
  8 * lenSum (entriesOf records) (seq 0 256) <= maxUint32 ->
  (how = ByFreeze -> isReaderAt f = true) ->
  exists cdb,
    finish how (writerAfter (freshStore f) records) = Ok cdb /\
    Finished records cdb.
Proof.
  intros Hc Hfit Hr.
  pose proof (finalStore_holds f
                (concat (map encodeRecord records) ++
                 concat (map (encodeTable (entriesOf records)) (seq 0 256)))
                (indexOf records) (indexOf_length records)) as Hh.
  destruct how.
  - unfold finish, Freeze, bind.
    rewrite (finalizeOnce_Do_writerAfter f records Hc Hfit).
    unfold gets, ret, fail. cbn [writer finalStore freshStore isReaderAt snd].
    rewrite (Hr eq_refl). cbn [snd].
    eexists. split; [reflexivity|].
    constructor; cbn [reader cdb_index]; auto.
  - unfold finish, Close, bind.
    rewrite (finalizeOnce_Do_writerAfter f records Hc Hfit).
    unfold gets, ret, onWriter, File_Close, set_writer.
    cbn [writer finalStore freshStore isCloser closed].
    assert (Hhdr : holds (data (finalStore (freshStore f)
                (concat (map encodeRecord records) ++
                 concat (map (encodeTable (entriesOf records)) (seq 0 256)))
                (indexOf records))) 0 (encodeIndex (indexOf records))).
    { now apply holds_app in Hh as [Hh _]. }
    assert (Hcl : closed (finalStore (freshStore f)
                (concat (map encodeRecord records) ++
                 concat (map (encodeTable (entriesOf records)) (seq 0 256)))
                (indexOf records)) = false) by reflexivity.
    revert Hh Hhdr Hcl. generalize (finalStore (freshStore f)
                (concat (map encodeRecord records) ++
                 concat (map (encodeTable (entriesOf records)) (seq 0 256)))
                (indexOf records)).
    intros F Hh Hhdr Hcl. cbn [writer]. rewrite ?Hcl.
    assert (HN : New (reopen F) =
                 Ok {| reader := reopen F; cdb_index := indexOf records |}).
    { unfold New.
      rewrite (readIndex_holds _ (indexOf records));
        [|reflexivity|apply indexOf_length|exact Hhdr].
      now rewrite decodeIndex_indexOf. }
    assert (HF : Finished records
                   {| reader := reopen F; cdb_index := indexOf records |}).
    { constructor; cbn [reader cdb_index reopen closed data]; auto. }
    destruct (isCloser f); cbn [writer reopen data] in *; rewrite ?Hcl; eauto.
Qed.

Lemma build_Finished (how : finishing) (f : File) (records : list record)
    (cdb : CDB) :
  build how f records = Ok cdb -> Finished records cdb.
Proof.
  unfold build. intros H.
  destruct (closed f) eqn:Hc; [now rewrite NewWriter_closed in H|].
  rewrite (NewWriter_open f Hc) in H.
  destruct (PutAll records (writerAfter (freshStore f) [])) as [w' r] eqn:HP.
  destruct r as [[]| |]; try discriminate.
  apply PutAll_writerAfter in HP as [-> Hle];
    [|change (totalSize []) with 0; unfold indexSize, maxUint32; lia].
  cbn [app] in *.
  destruct (Z_le_gt_dec
              (indexSize + totalSize records +
               8 * lenSum (entriesOf records) (seq 0 256)) maxUint32)
    as [Hfit|Hover].
  - destruct how.
    + destruct (isReaderAt f) eqn:Hr.
      * destruct (finish_writerAfter ByFreeze f records Hc Hfit (fun _ => Hr))
          as (cdb' & E & HF).
        rewrite E in H. now inversion H; subst.
      * exfalso. unfold finish, Freeze, bind in H.
        rewrite (finalizeOnce_Do_writerAfter f records Hc Hfit) in H.
        unfold gets, fail in H. cbn [writer finalStore freshStore isReaderAt] in H.
        rewrite Hr in H. discriminate.
    + destruct (finish_writerAfter ByClose f records Hc Hfit)
        as (cdb' & E & HF); [discriminate|].
      rewrite E in H. now inversion H; subst.
  - exfalso.
    destruct (finalizeOnce_Do_overflow (freshStore f) records Hover)
      as (w' & E & _); [lia|].
    destruct how; unfold finish, Freeze, Close, bind in H; rewrite E in H;
      discriminate.
Qed.

(** The converse: on an open store, records that fit are written and
    finished without an error. *)
Lemma build_succeeds (how : finishing) (f : File) (records : list record) :
  closed f = false ->
  indexSize + totalSize records +
  8 * lenSum (entriesOf records) (seq 0 256) <= maxUint32 ->
  (how = ByFreeze -> isReaderAt f = true) ->
  exists cdb, build how f records = Ok cdb.
Proof.
  intros Hc Hfit Hr. unfold build. rewrite (NewWriter_open f Hc).
  pose proof (lenSum_nonneg (entriesOf records) (seq 0 256)).
  rewrite (PutAll_fits (freshStore f) [] records) by (cbn [app]; lia).
  cbn [app].
  destruct (finish_writerAfter how f records Hc Hfit Hr) as (cdb & E & _).
  eauto.
Qed.


(** ** Reading a finished store *)

Lemma encodeIndex_len (idx : index) :
  length idx = 256%nat -> len (encodeIndex idx) = indexSize.
Proof. intros Hl. unfold len. rewrite encodeIndex_length, Hl. reflexivity. Qed.

Lemma len_concat_records (rs : list record) :
  len (concat (map encodeRecord rs)) = totalSize rs.
Proof.
  induction rs as [|r rs IH]; [reflexivity|].
  cbn [map concat]. now rewrite len_app, IH, encodeRecord_len, totalSize_cons.
Qed.

Lemma encodeEntry_len (e : entry) : len (encodeEntry e) = 8.
Proof. reflexivity. Qed.

Lemma len_concat_entries (es : list entry) :
  len (concat (map encodeEntry es)) = 8 * len es.
Proof.
  induction es as [|e es IH]; [reflexivity|].
  cbn [map concat]. rewrite len_app, IH, encodeEntry_len, len_cons. lia.
Qed.

Lemma len_concat_tables (E : list (list entry)) (buckets : list nat) :
  len (concat (map (encodeTable E) buckets)) = 8 * lenSum E buckets.
Proof.
  induction buckets as [|i rest IH]; [reflexivity|].
  cbn [map concat]. rewrite len_app, IH, lenSum_cons.
  unfold encodeTable. rewrite len_concat_entries. lia.
Qed.

Lemma Finished_regions (records : list record) (cdb : CDB) :
  Finished records cdb ->
  holds (data (reader cdb)) 0 (encodeIndex (indexOf records)) /\
  holds (data (reader cdb)) indexSize (concat (map encodeRecord records)) /\
  holds (data (reader cdb)) (indexSize + totalSize records)
    (concat (map (encodeTable (entriesOf records)) (seq 0 256))).
Proof.
  intros [_ _ _ H]. unfold storeBytes in H.
  apply holds_app in H as [H0 H]. apply holds_app in H as [H1 H2].
  rewrite encodeIndex_len in H1, H2 by apply indexOf_length.
  rewrite len_concat_records in H2.
  now rewrite Z.add_0_l in H1, H2.
Qed.

Lemma holds_placed (d : list byte) (rs : list record) :
  forall (off p : Z) (r : record),
    holds d off (concat (map encodeRecord rs)) ->
    In (p, r) (placed off rs) ->
    holds d p (encodeRecord r) /\ off <= p /\
    p + recordSize r <= off + totalSize rs.
Proof.
  induction rs as [|r0 rs IH]; intros off p r H Hin; [destruct Hin|].
  cbn [map concat placed] in *. rewrite totalSize_cons.
  apply holds_app in H as [H0 H]. rewrite encodeRecord_len in H.
  pose proof (totalSize_nonneg rs). pose proof (recordSize_pos r0).
  destruct Hin as [E|Hin].
  - inversion E; subst. repeat split; [assumption|lia|lia].
  - destruct (IH _ _ _ H Hin) as (Hh & Hlo & Hhi).
    repeat split; [assumption|lia|lia].
Qed.

Lemma firstn_seq_le (i : nat) :
  forall k n, (i <= n)%nat -> firstn i (seq k n) = seq k i.
Proof.
  induction i as [|i IH]; intros k n Hi; [reflexivity|].
  destruct n as [|n]; [lia|]. cbn [seq firstn]. rewrite IH by lia. reflexivity.
Qed.

Lemma firstn_map_seq {A : Type} (F : nat -> A) (i n : nat) :
  (i <= n)%nat -> firstn i (map F (seq 0 n)) = map F (seq 0 i).
Proof. intros Hi. now rewrite firstn_map, firstn_seq_le. Qed.

(** The table of bucket [i] sits after the tables of the buckets before. *)
Lemma holds_table (records : list record) (cdb : CDB) (i : nat) :
  Finished records cdb -> (i < 256)%nat ->
  holds (data (reader cdb))
    (indexSize + totalSize records +
     8 * lenSum (entriesOf records) (seq 0 i))
    (encodeTable (entriesOf records) i).
Proof.
  intros HF Hi. destruct (Finished_regions _ _ HF) as (_ & _ & H).
  apply (holds_concat_nth _ _ _ i) in H; [|now rewrite length_map, length_seq].
  rewrite firstn_map_seq, len_concat_tables in H by lia.
  now rewrite (nth_map_seq [] (encodeTable (entriesOf records))) in H.
Qed.

Lemma holds_entry (d : list byte) (off : Z) (es : list entry) (j : nat) (e0 : entry) :
  holds d off (concat (map encodeEntry es)) -> (j < length es)%nat ->
  holds d (off + 8 * Z.of_nat j) (encodeEntry (nth j es e0)).
Proof.
  intros H Hj.
  apply (holds_concat_nth _ _ _ j) in H; [|now rewrite length_map].
  rewrite firstn_map, len_concat_entries in H.
  unfold len in H. rewrite firstn_length_le in H by lia.
  rewrite (nth_indep _ [] (encodeEntry e0)) in H by now rewrite length_map.
  now rewrite map_nth in H.
Qed.

Lemma lenSum_split (E : list (list entry)) (i : nat) :
  (i < 256)%nat ->
  lenSum E (seq 0 256) =
  lenSum E (seq 0 i) + len (nth i E []) + lenSum E (seq (S i) (255 - i)).
Proof.
  intros Hi.
  replace 256%nat with (i + S (255 - i))%nat at 1 by lia.
  rewrite seq_app, lenSum_app. cbn [seq Nat.add]. rewrite lenSum_cons. lia.
Qed.

(** The table of each bucket as [finalize] recorded it: nothing truncated. *)
Lemma Finished_table (records : list record) (cdb : CDB) (i : nat) :
  Finished records cdb -> (i < 256)%nat ->
  nth i (cdb_index cdb) zeroTable =
  {| table_offset :=
       indexSize + totalSize records +
       8 * lenSum (entriesOf records) (seq 0 i);
     table_length := len (nth i (entriesOf records) []) |} /\
  indexSize + totalSize records + 8 * lenSum (entriesOf records) (seq 0 i) +
  8 * len (nth i (entriesOf records) []) <= maxUint32.
Proof.
  intros HF Hi. pose proof (fin_fits _ _ HF) as Hfit.
  rewrite (lenSum_split _ i Hi) in Hfit.
  pose proof (lenSum_nonneg (entriesOf records) (seq 0 i)).
  pose proof (lenSum_nonneg (entriesOf records) (seq (S i) (255 - i))).
  pose proof (len_nonneg (nth i (entriesOf records) [])).
  pose proof (totalSize_nonneg records).
  split; [|lia].
  rewrite (fin_index _ _ HF). unfold indexOf. rewrite nth_map_seq by assumption.
  rewrite !uint32_small; [reflexivity| |]; unfold indexSize in *; lia.
Qed.


(** ** [getValueAt] and one iteration of the probe *)

Lemma to_nat_len {A : Type} (l : list A) : Z.to_nat (len l) = length l.
Proof. unfold len. apply Nat2Z.id. Qed.

Lemma getValueAt_record (cdb : CDB) (p : Z) (k v key : list byte) :
  closed (reader cdb) = false ->
  holds (data (reader cdb)) p (encodeRecord (k, v)) ->
  p + recordSize (k, v) <= maxUint32 ->
  getValueAt cdb p key = Ok (if bytes_eq_dec k key then Some v else None).
Proof.
  intros Hc H Hfit. pose proof (holds_nonneg _ _ _ H) as [Hp _].
  unfold recordSize in Hfit. cbn [fst snd] in Hfit.
  pose proof (len_nonneg k). pose proof (len_nonneg v).
  unfold encodeRecord in H. cbn [fst snd] in H. rewrite app_assoc in H.
  apply holds_app in H as [Ht Hkv].
  change (len (_ ++ _)) with 8 in Hkv.
  unfold getValueAt. rewrite (readTuple_holds _ _ _ _ Hc Ht).
  rewrite !uint32_idem, !(uint32_small (len _)) by lia.
  destruct (Z.eqb_spec (len k) (len key)) as [El|Nl]; cbn [negb].
  - rewrite <- len_app, !uint32_small by (rewrite ?len_app; lia).
    rewrite (ReadAt_holds _ _ _ Hc Hkv).
    destruct (Z.gtb_spec (len k) (len (k ++ v))) as [Hgt|_];
      [rewrite len_app in Hgt; lia|].
    rewrite !to_nat_len, firstn_length_app, skipn_length_app.
    destruct (bytes_eq_dec k key); reflexivity.
  - destruct (bytes_eq_dec k key) as [->|]; [contradiction|reflexivity].
Qed.

Lemma bucket_In (i : nat) (ps : list (Z * record)) (x : Z * record) :
  In x (bucket i ps) -> In x ps /\ bucketOf (fst (snd x)) = i.
Proof.
  unfold bucket. rewrite filter_In. intros [H E]. split; [assumption|].
  now apply Nat.eqb_eq.
Qed.

Section Probe.

Variables (records : list record) (cdb : CDB) (key : list byte).
Hypothesis HF : Finished records cdb.

Let ps := bucketFor records key.
Let tbl := nth (bucketOf key) (cdb_index cdb) zeroTable.

Lemma tbl_length : table_length tbl = len ps.
Proof.
  unfold tbl. destruct (Finished_table _ _ _ HF (bucketOf_lt key)) as [-> _].
  cbn [table_length]. rewrite nth_entriesOf by apply bucketOf_lt.
  unfold len. now rewrite length_map.
Qed.

(** One iteration at a slot of the table. *)
Lemma probe_step (fuel j : nat) (startingSlot p : Z) (k v : list byte) :
  (j < length ps)%nat ->
  nth j ps (0, ([], [])) = (p, (k, v)) ->
  probe (S fuel) cdb key (keyHash key) tbl startingSlot (Z.of_nat j) =
  if keyHash k =? 0 then Some EmptySlot
  else if (keyHash k =? keyHash key) &&
          (if bytes_eq_dec k key then true else false)
       then Some (Hit v)
       else if (Z.of_nat j + 1) mod len ps =? startingSlot
            then Some FullCycle
            else probe fuel cdb key (keyHash key) tbl startingSlot
                   ((Z.of_nat j + 1) mod len ps).
Proof.
  intros Hj Hn.
  pose proof (bucketOf_lt key) as Hb.
  destruct (Finished_table _ _ _ HF Hb) as [Htbl Hfit].
  pose proof (holds_table _ _ _ HF Hb) as Ht.
  unfold encodeTable in Ht.
  rewrite nth_entriesOf in Hfit, Ht by assumption.
  fold (bucketFor records key) in Hfit, Ht. fold ps in Hfit, Ht.
  assert (Hlen : len (map entryOf ps) = len ps)
    by (unfold len; now rewrite length_map).
  rewrite Hlen in Hfit.
  pose proof (lenSum_nonneg (entriesOf records) (seq 0 (bucketOf key))) as Hs.
  pose proof (totalSize_nonneg records) as Hts.
  apply (holds_entry _ _ _ j (entryOf (0, ([], [])))) in Ht;
    [|now rewrite length_map].
  rewrite map_nth, Hn in Ht.
  assert (Hin : In (p, (k, v)) (placed indexSize records)).
  { apply (bucket_In (bucketOf key)). fold (bucketFor records key). fold ps.
    rewrite <- Hn. now apply nth_In. }
  destruct (Finished_regions _ _ HF) as (_ & Hrec & _).
  destruct (holds_placed _ _ _ _ _ Hrec Hin) as (Hh & Hlo & Hhi).
  assert (HjL : Z.of_nat j < len ps) by (unfold len; lia).
  pose proof (recordSize_pos (k, v)) as Hrs.
  pose proof (lenSum_split (entriesOf records) _ Hb) as Hsplit.
  pose proof (fin_fits _ _ HF) as Hall.
  pose proof (lenSum_nonneg (entriesOf records)
                (seq (S (bucketOf key)) (255 - bucketOf key))).
  pose proof (len_nonneg (nth (bucketOf key) (entriesOf records) [])).
  cbn [probe]. rewrite tbl_length. unfold tbl at 1. rewrite Htbl.
  cbn [table_offset].
  rewrite (uint32_small (8 * Z.of_nat j)) by (unfold indexSize in *; lia).
  rewrite uint32_small by (unfold indexSize in *; lia).
  unfold encodeEntry, entryOf in Ht. cbn [hash offset fst snd] in Ht.
  rewrite (readTuple_holds _ _ _ _ (fin_open _ _ HF) Ht).
  rewrite uint32_idem.
  rewrite (uint32_small (keyHash k))
    by (pose proof (keyHash_range k); unfold maxUint32; lia).
  rewrite (uint32_small p) by (unfold indexSize in *; lia).
  rewrite (uint32_small (Z.of_nat j + 1)) by (unfold indexSize in *; lia).
  destruct (keyHash k =? 0); [reflexivity|].
  destruct (keyHash k =? keyHash key); cbn [andb]; [|reflexivity].
  rewrite (getValueAt_record cdb p k v key (fin_open _ _ HF) Hh)
    by (unfold indexSize in *; lia).
  destruct (bytes_eq_dec k key); reflexivity.
Qed.

End Probe.


(** ** The whole probe is a scan of the bucket in slot order *)

Lemma mod_succ_small (j L : Z) : 0 <= j -> j + 1 < L -> (j + 1) mod L = j + 1.
Proof. intros. apply Z.mod_small. lia. Qed.

Lemma mod_succ_wrap (L : Z) : 0 < L -> (L - 1 + 1) mod L = 0.
Proof. intros. replace (L - 1 + 1) with L by lia. apply Z.mod_same. lia. Qed.

Lemma scan_cases (key : list byte) (l : list (Z * record)) :
  (exists value, scan key l = Hit value) \/
  scan key l = EmptySlot \/ scan key l = FullCycle.
Proof.
  induction l as [|[p [k v]] l IH]; cbn [scan]; [auto|].
  destruct (keyHash k =? 0); [auto|].
  destruct ((keyHash k =? keyHash key) &&
            (if bytes_eq_dec k key then true else false)); eauto.
Qed.

Section Scan.

Variables (records : list record) (cdb : CDB) (key : list byte).
Hypothesis HF : Finished records cdb.

Let ps := bucketFor records key.
Let tbl := nth (bucketOf key) (cdb_index cdb) zeroTable.

(** From slot [j] up to the slot before [s], with [j < s]. *)
Lemma probe_upto (s : nat) (Hs : (s < length ps)%nat) (n : nat) :
  forall (j fuel : nat),
    (j + n = s)%nat -> (1 <= n)%nat -> (n <= fuel)%nat ->
    probe fuel cdb key (keyHash key) tbl (Z.of_nat s) (Z.of_nat j) =
    Some (scan key (firstn n (skipn j ps))).
Proof.
  induction n as [|n IH]; intros j fuel Hj Hn Hfuel; [lia|].
  destruct fuel as [|fuel]; [lia|].
  rewrite (skipn_nth_cons ((0, ([], [])) : Z * record) ps j) by lia.
  destruct (nth j ps (0, ([], []))) as [p [k v]] eqn:En.
  unfold tbl, ps in *.
  rewrite (probe_step records cdb key HF fuel j (Z.of_nat s) p k v)
    by (assumption || lia).
  cbn [firstn scan].
  destruct (keyHash k =? 0); [reflexivity|].
  destruct ((keyHash k =? keyHash key) &&
            (if bytes_eq_dec k key then true else false)); [reflexivity|].
  rewrite mod_succ_small by (unfold len; lia).
  destruct (Z.eqb_spec (Z.of_nat j + 1) (Z.of_nat s)) as [E|N].
  - replace n with 0%nat by lia. reflexivity.
  - replace (Z.of_nat j + 1) with (Z.of_nat (S j)) by lia.
    apply IH; lia.
Qed.

(** From slot [j >= s] to the end of the table, then on from slot 0. *)
Lemma probe_from (s : nat) (Hs : (s < length ps)%nat) (n : nat) :
  forall (j fuel : nat),
    (j + n = length ps)%nat -> (1 <= n)%nat -> (s <= j)%nat ->
    (n + s <= fuel)%nat ->
    probe fuel cdb key (keyHash key) tbl (Z.of_nat s) (Z.of_nat j) =
    Some (scan key (skipn j ps ++ firstn s ps)).
Proof.
  induction n as [|n IH]; intros j fuel Hj Hn Hsj Hfuel; [lia|].
  destruct fuel as [|fuel]; [lia|].
  rewrite (skipn_nth_cons ((0, ([], [])) : Z * record) ps j) by lia.
  destruct (nth j ps (0, ([], []))) as [p [k v]] eqn:En.
  unfold tbl, ps in *.
  rewrite (probe_step records cdb key HF fuel j (Z.of_nat s) p k v)
    by (assumption || lia).
  cbn [app scan].
  destruct (keyHash k =? 0); [reflexivity|].
  destruct ((keyHash k =? keyHash key) &&
            (if bytes_eq_dec k key then true else false)); [reflexivity|].
  destruct n as [|n].
  - (* the last slot: wrap around *)
    replace (Z.of_nat j) with (len (bucketFor records key) - 1)
      by (unfold len; lia).
    rewrite mod_succ_wrap by (unfold len; lia).
    rewrite skipn_all2 by lia. cbn [app].
    destruct (Z.eqb_spec 0 (Z.of_nat s)) as [E|N].
    + replace s with 0%nat by lia. reflexivity.
    + change 0 with (Z.of_nat 0).
      apply (probe_upto s Hs s 0%nat fuel); lia.
  - rewrite mod_succ_small by (unfold len; lia).
    destruct (Z.eqb_spec (Z.of_nat j + 1) (Z.of_nat s)) as [E|N]; [lia|].
    replace (Z.of_nat j + 1) with (Z.of_nat (S j)) by lia.
    apply IH; lia.
Qed.

(** With as much fuel as the table has slots, the probe loop is left, and
    the way it is left is the scan of the bucket in slot order. *)
Lemma probeOf_scan (fuel : nat) :
  (length ps <= fuel)%nat ->
  probeOf fuel cdb key =
  if len ps =? 0 then None else Some (Some (scan key (probed records key))).
Proof.
  intros Hfuel.
  change (probeOf fuel cdb key) with
    (if table_length tbl =? 0 then None
     else Some (probe fuel cdb key (keyHash key) tbl
                  (Z.shiftr (keyHash key) 8 mod table_length tbl)
                  (Z.shiftr (keyHash key) 8 mod table_length tbl))).
  assert (Htl : table_length tbl = len ps) by (apply tbl_length; exact HF).
  rewrite Htl.
  destruct (Z.eqb_spec (len ps) 0) as [E|N]; [reflexivity|].
  assert (HL : 0 < len ps) by (pose proof (len_nonneg ps); lia).
  pose proof (Z.mod_pos_bound (Z.shiftr (keyHash key) 8) (len ps) HL) as Hm.
  assert (Hs : (Z.to_nat (Z.shiftr (keyHash key) 8 mod len ps) < length ps)%nat)
    by (unfold len in *; lia).
  rewrite <- (Z2Nat.id (Z.shiftr (keyHash key) 8 mod len ps)) by lia.
  do 2 f_equal.
  apply (probe_from _ Hs
           (length ps - Z.to_nat (Z.shiftr (keyHash key) 8 mod len ps))%nat);
    lia.
Qed.

Lemma Get_scan :
  Get cdb key =
  Some (match scan key (probed records key) with
        | Hit value => Ok (Some value)
        | _ => Ok None
        end).
Proof.
  change (Get cdb key) with
    (Get_fuel (Z.to_nat (table_length tbl)) cdb key).
  assert (Htl : table_length tbl = len ps) by (apply tbl_length; exact HF).
  unfold Get_fuel.
  rewrite probeOf_scan by (rewrite Htl, to_nat_len; apply Nat.le_refl).
  destruct (Z.eqb_spec (len ps) 0) as [E|N].
  - unfold probed. fold ps. rewrite (len_nil_inv ps E).
    rewrite skipn_nil, firstn_nil. reflexivity.
  - destruct (scan_cases key (probed records key)) as [[v E]|[E|E]];
      rewrite E; reflexivity.
Qed.

End Scan.


(** ** What a scan can return *)

Lemma scan_Hit (key : list byte) (l : list (Z * record)) (value : list byte) :
  scan key l = Hit value -> exists p, In (p, (key, value)) l.
Proof.
  induction l as [|[p [k v]] l IH]; cbn [scan]; [discriminate|].
  destruct (keyHash k =? 0); [discriminate|].
  destruct (keyHash k =? keyHash key); cbn [andb].
  - destruct (bytes_eq_dec k key) as [->|].
    + intros E. inversion E; subst. exists p. now left.
    + intros E. destruct (IH E) as [p' Hp]. exists p'. now right.
  - intros E. destruct (IH E) as [p' Hp]. exists p'. now right.
Qed.

Lemma scan_EmptySlot (key : list byte) (l : list (Z * record)) :
  scan key l = EmptySlot -> exists p k v, In (p, (k, v)) l /\ keyHash k = 0.
Proof.
  induction l as [|[p [k v]] l IH]; cbn [scan]; [discriminate|].
  destruct (Z.eqb_spec (keyHash k) 0) as [E0|N0].
  - intros _. exists p, k, v. split; [now left|assumption].
  - destruct ((keyHash k =? keyHash key) &&
              (if bytes_eq_dec k key then true else false)); [discriminate|].
    intros E. destruct (IH E) as (p' & k' & v' & Hin & Hz).
    exists p', k', v'. split; [now right|assumption].
Qed.

Lemma scan_FullCycle (key : list byte) (l : list (Z * record)) :
  scan key l = FullCycle <->
  (forall p k v, In (p, (k, v)) l -> keyHash k <> 0 /\ k <> key).
Proof.
  induction l as [|[p [k v]] l IH]; cbn [scan].
  - split; [intros _ ? ? ? []|reflexivity].
  - destruct (Z.eqb_spec (keyHash k) 0) as [E0|N0].
    + split; [discriminate|]. intros H.
      destruct (H p k v (or_introl eq_refl)) as [N _]. contradiction.
    + destruct (Z.eqb_spec (keyHash k) (keyHash key)) as [Eh|Nh]; cbn [andb].
      * destruct (bytes_eq_dec k key) as [Ek|Nk].
        -- split; [discriminate|]. intros H.
           destruct (H p k v (or_introl eq_refl)) as [_ N]. contradiction.
        -- rewrite IH. split.
           ++ intros H p' k' v' [E|Hin]; [inversion E; subst; auto|eauto].
           ++ intros H p' k' v' Hin. apply (H p' k' v'). now right.
      * rewrite IH. split.
        -- intros H p' k' v' [E|Hin]; [|eauto].
           inversion E; subst. split; [assumption|]. intros ->. contradiction.
        -- intros H p' k' v' Hin. apply (H p' k' v'). now right.
Qed.


(** A key whose hash is 0 is never found. *)
Lemma scan_hash0 (key : list byte) (l : list (Z * record)) :
  keyHash key = 0 ->
  (forall value, scan key l <> Hit value) /\
  ((exists p v, In (p, (key, v)) l) -> scan key l = EmptySlot).
Proof.
  intros Hz.
  assert (NH : forall value, scan key l <> Hit value).
  { induction l as [|[p [k v]] l IH]; cbn [scan]; [discriminate|].
    destruct (Z.eqb_spec (keyHash k) 0) as [E0|N0]; [discriminate|].
    rewrite Hz. destruct (Z.eqb_spec (keyHash k) 0); [contradiction|].
    cbn [andb]. exact IH. }
  split; [exact NH|].
  intros (p & v & Hin).
  destruct (scan_cases key l) as [[v' E]|[E|E]]; [now destruct (NH v')|exact E|].
  rewrite scan_FullCycle in E. destruct (E _ _ _ Hin) as [N _]. contradiction.
Qed.

(** ** The records of a bucket *)

Lemma placed_In (rs : list record) :
  forall (off p : Z) (r : record), In (p, r) (placed off rs) -> In r rs.
Proof.
  induction rs as [|r0 rs IH]; intros off p r; cbn [placed]; [auto|].
  intros [E|H]; [inversion E; now left|right; eauto].
Qed.

Lemma In_placed (rs : list record) :
  forall (off : Z) (r : record), In r rs -> exists p, In (p, r) (placed off rs).
Proof.
  induction rs as [|r0 rs IH]; intros off r; cbn [placed]; [intros []|].
  intros [E|H].
  - subst. exists off. now left.
  - destruct (IH (off + recordSize r0) r H) as [p Hp]. exists p. now right.
Qed.

Lemma probed_In (records : list record) (key : list byte) (x : Z * record) :
  In x (probed records key) <-> In x (bucketFor records key).
Proof.
  unfold probed. rewrite in_app_iff.
  rewrite <- (firstn_skipn (startSlot records key) (bucketFor records key)) at 3.
  rewrite in_app_iff. tauto.
Qed.

Lemma bucketFor_In (records : list record) (key : list byte) (p : Z)
    (k v : list byte) :
  In (p, (k, v)) (bucketFor records key) <->
  In (p, (k, v)) (placed indexSize records) /\ bucketOf k = bucketOf key.
Proof.
  unfold bucketFor, bucket. rewrite filter_In. cbn [fst snd].
  now rewrite Nat.eqb_eq.
Qed.



(* ================================================================= *)
(** * The probe loop of [Get] is always left

    On any store, whatever its bytes: a table of [L] slots is probed for at
    most [L] iterations. *)

Section ProbeTotal.

Variables (cdb : CDB) (key : list byte) (h : Z) (tbl : table) (s : Z).
Hypothesis HL : 0 < table_length tbl <= maxUint32.
Hypothesis Hs : 0 <= s < table_length tbl.

(** One iteration either leaves the loop or goes on at the next slot. *)
Lemma probe_S_cases (fuel : nat) (slot : Z) :
  0 <= slot < table_length tbl ->
  (if (slot + 1) mod table_length tbl =? s then Some FullCycle
   else probe fuel cdb key h tbl s ((slot + 1) mod table_length tbl)) <> None ->
  probe (S fuel) cdb key h tbl s slot <> None.
Proof.
  intros Hslot Hnext. cbn [probe].
  rewrite (uint32_small (slot + 1)) by lia.
  destruct (readTuple (reader cdb) _) as [[slotHash off]|e|]; try discriminate.
  destruct (slotHash =? 0); [discriminate|].
  destruct (slotHash =? h); [|exact Hnext].
  destruct (getValueAt cdb off key) as [[v|]|e|]; try discriminate.
  exact Hnext.
Qed.

Lemma probe_total_upto (n : nat) :
  forall (slot : Z) (fuel : nat),
    0 <= slot -> slot + Z.of_nat n = s -> (1 <= n)%nat -> (n <= fuel)%nat ->
    probe fuel cdb key h tbl s slot <> None.
Proof.
  induction n as [|n IH]; intros slot fuel H0 Hn H1 Hfuel; [lia|].
  destruct fuel as [|fuel]; [lia|].
  apply probe_S_cases; [lia|].
  rewrite mod_succ_small by lia.
  destruct (Z.eqb_spec (slot + 1) s); [discriminate|].
  apply IH; lia.
Qed.

Lemma probe_total_from (n : nat) :
  forall (slot : Z) (fuel : nat),
    s <= slot -> slot + Z.of_nat n = table_length tbl -> (1 <= n)%nat ->
    (n + Z.to_nat s <= fuel)%nat ->
    probe fuel cdb key h tbl s slot <> None.
Proof.
  induction n as [|n IH]; intros slot fuel H0 Hn H1 Hfuel; [lia|].
  destruct fuel as [|fuel]; [lia|].
  apply probe_S_cases; [lia|].
  destruct n as [|n].
  - replace slot with (table_length tbl - 1) by lia.
    rewrite mod_succ_wrap by lia.
    destruct (Z.eqb_spec 0 s); [discriminate|].
    apply (probe_total_upto (Z.to_nat s)); lia.
  - rewrite mod_succ_small by lia.
    destruct (Z.eqb_spec (slot + 1) s); [discriminate|].
    apply IH; lia.
Qed.

Lemma probe_total (fuel : nat) :
  (Z.to_nat (table_length tbl) <= fuel)%nat ->
  probe fuel cdb key h tbl s s <> None.
Proof.
  intros Hfuel.
  apply (probe_total_from (Z.to_nat (table_length tbl - s))); lia.
Qed.

End ProbeTotal.

(** [Get] returns on every reader whose index holds [uint32] lengths. *)
Lemma Get_total (cdb : CDB) (key : list byte) :
  0 <= table_length (nth (bucketOf key) (cdb_index cdb) zeroTable)
    <= maxUint32 ->
  Get cdb key <> None.
Proof.
  intros HL. unfold Get, Get_fuel, probeOf. fold (bucketOf key). cbv zeta.
  destruct (Z.eqb_spec
              (table_length (nth (bucketOf key) (cdb_index cdb) zeroTable)) 0)
    as [E|N]; [discriminate|].
  pose proof (probe_total cdb key (keyHash key)
                (nth (bucketOf key) (cdb_index cdb) zeroTable)
                (Z.shiftr (keyHash key) 8 mod
                 table_length (nth (bucketOf key) (cdb_index cdb) zeroTable)))
    as HT.
  destruct (probe _ cdb key (keyHash key) _ _ _) as [[]|] eqn:E;
    try discriminate.
  exfalso. eapply HT; [lia| |apply Nat.le_refl|exact E].
  apply Z.mod_pos_bound. lia.
Qed.

(* ================================================================= *)
(** * The claims about the reader *)



Lemma sampleRecords_built :
  build ByFreeze emptyFile sampleRecords = Ok (storeOf ByFreeze sampleRecords).
Proof. vm_compute. reflexivity. Qed.




Lemma Get_empty_bucket (cdb : CDB) (key : list byte) (fuel : nat) :
  table_length (nth (bucketOf key) (cdb_index cdb) zeroTable) = 0 ->
  Get cdb key = Some (Ok None) /\ probeOf fuel cdb key = None.
Proof.
  intros H.
  assert (P : forall n, probeOf n cdb key = None).
  { intros n. unfold probeOf. fold (bucketOf key). cbv zeta.
    rewrite H. reflexivity. }
  split; [|apply P].
  unfold Get, Get_fuel. now rewrite P.
Qed.

Lemma probeOf_Finished (records : list record) (cdb : CDB) (key : list byte) :
  Finished records cdb ->
  bucketFor records key <> [] ->
  probeOf (Z.to_nat (table_length
                       (nth (bucketOf key) (cdb_index cdb) zeroTable))) cdb key
  = Some (Some (scan key (probed records key))).
Proof.
  intros HF Hne. rewrite (tbl_length records cdb key HF), to_nat_len.
  rewrite (probeOf_scan records cdb key HF) by apply Nat.le_refl.
  destruct (Z.eqb_spec (len (bucketFor records key)) 0) as [E|N];
    [|reflexivity].
  now apply len_nil_inv in E.
Qed.

Lemma In_bucketFor (records : list record) (key value : list byte) :
  In (key, value) records -> exists p, In (p, (key, value)) (bucketFor records key).
Proof.
  intros Hin. destruct (In_placed records indexSize _ Hin) as [p Hp].
  exists p. apply bucketFor_In. auto.
Qed.


Lemma eclipsedRecords_built :
  build ByFreeze emptyFile eclipsedRecords
  = Ok (storeOf ByFreeze eclipsedRecords).
Proof. vm_compute. reflexivity. Qed.



(** C7: on a finished store, empty or not, [Get] of a key that was never
    inserted returns "not found" and no error; and on any reader at all, a
    bucket of length 0 gives "not found" before the probe loop is entered,
    so without a read. *)
Theorem C7_missing_key (how : finishing) (f : File) (records : list record)
    (cdb : CDB) (key : list byte) :
  build how f records = Ok cdb ->
  ~ In key (map fst records) ->
  Get cdb key = Some (Ok None) /\
  (forall (cdb' : CDB) (key' : list byte) (fuel : nat),
      table_length (nth (bucketOf key') (cdb_index cdb') zeroTable) = 0 ->
      Get cdb' key' = Some (Ok None) /\ probeOf fuel cdb' key' = None).
Proof.
  intros Hb Hnot. pose proof (build_Finished _ _ _ _ Hb) as HF.
  split; [|intros; now apply Get_empty_bucket].
  rewrite (Get_scan records cdb key HF).
  destruct (scan_cases key (probed records key)) as [[v E]|[E|E]];
    rewrite E; try reflexivity.
  exfalso. apply Hnot.
  destruct (scan_Hit _ _ _ E) as [p Hp].
  apply probed_In, bucketFor_In in Hp as [Hp _].
  apply (in_map fst _ (key, v)). exact (placed_In _ _ _ _ Hp).
Qed.

Lemma C7_missing_key_witness :
  Get (storeOf ByFreeze sampleRecords) (bytes "not in the table")
  = Some (Ok None).
Proof.
  refine (proj1 (C7_missing_key ByFreeze emptyFile sampleRecords
                   (storeOf ByFreeze sampleRecords) (bytes "not in the table")
                   sampleRecords_built _)).
  cbn. intros H. decompose [or] H; try contradiction; discriminate.
Defined.

(** C10: on a finished store, [Get] of a key whose hash is 0 returns "not
    found", inserted or not; when the key was inserted, the probe loop is
    left by the [break] on a stored hash of 0, so before [getValueAt] could
    compare the bytes of its record. *)
Theorem C10_hash_zero_never_found (how : finishing) (f : File)
    (records : list record) (cdb : CDB) (key : list byte) :
  build how f records = Ok cdb ->
  keyHash key = 0 ->
  Get cdb key = Some (Ok None) /\
  (In key (map fst records) ->
   probeOf (Z.to_nat (table_length
                        (nth (bucketOf key) (cdb_index cdb) zeroTable)))
     cdb key = Some (Some EmptySlot)).
Proof.
  intros Hb Hz. pose proof (build_Finished _ _ _ _ Hb) as HF.
  destruct (scan_hash0 key (probed records key) Hz) as [NH HE].
  split.
  - rewrite (Get_scan records cdb key HF).
    destruct (scan_cases key (probed records key)) as [[v E]|[E|E]];
      rewrite E; try reflexivity.
    now destruct (NH v).
  - intros Hin. apply in_map_iff in Hin as [[k v] [Ek Hin]].
    cbn [fst] in Ek. subst k.
    destruct (In_bucketFor records key v Hin) as [p Hp].
    rewrite (probeOf_Finished records cdb key HF)
      by (intros E; rewrite E in Hp; destruct Hp).
    rewrite HE; [reflexivity|].
    exists p, v. now apply probed_In.
Qed.

Lemma C10_hash_zero_never_found_witness :
  Get (storeOf ByFreeze eclipsedRecords) zeroKey = Some (Ok None) /\
  probeOf 2 (storeOf ByFreeze eclipsedRecords) zeroKey
  = Some (Some EmptySlot).
Proof.
  destruct (C10_hash_zero_never_found ByFreeze emptyFile eclipsedRecords
              (storeOf ByFreeze eclipsedRecords) zeroKey
              eclipsedRecords_built eq_refl) as [HG HP].
  split; [exact HG|].
  apply HP. cbn. tauto.
Defined.

(** C9: in every finished index the offset of bucket 0 is the end of the
    data region, [2048] plus the bytes of all the records written, whether
    or not bucket 0 has entries; the records lie just below it; and no
    bucket has a smaller offset. *)
Theorem C9_bucket0_offset (how : finishing) (f : File)
    (records : list record) (cdb : CDB) :
  build how f records = Ok cdb ->
  table_offset (nth 0 (cdb_index cdb) zeroTable) = 2048 + totalSize records /\
  holds (data (reader cdb)) 2048 (concat (map encodeRecord records)) /\
  len (concat (map encodeRecord records)) = totalSize records /\
  (forall i, (i < 256)%nat ->
     table_offset (nth 0 (cdb_index cdb) zeroTable) <=
     table_offset (nth i (cdb_index cdb) zeroTable)).
Proof.
  intros Hb. pose proof (build_Finished _ _ _ _ Hb) as HF.
  destruct (Finished_table records cdb 0 HF) as [E0 _]; [lia|].
  destruct (Finished_regions _ _ HF) as (_ & Hrec & _).
  rewrite E0. cbn [table_offset seq].
  change (lenSum (entriesOf records) []) with 0.
  change indexSize with 2048 in *.
  repeat split; [lia|assumption|apply len_concat_records|].
  intros i Hi. destruct (Finished_table records cdb i HF Hi) as [Ei _].
  rewrite Ei. cbn [table_offset].
  pose proof (lenSum_nonneg (entriesOf records) (seq 0 i)).
  change indexSize with 2048. lia.
Qed.

Lemma C9_bucket0_offset_witness :
  table_offset (nth 0 (cdb_index (storeOf ByFreeze sampleRecords)) zeroTable)
  = 2048 + totalSize sampleRecords /\
  table_length (nth 0 (cdb_index (storeOf ByFreeze sampleRecords)) zeroTable)
  = 0.
Proof.
  split.
  - exact (proj1 (C9_bucket0_offset ByFreeze emptyFile sampleRecords
                    (storeOf ByFreeze sampleRecords) sampleRecords_built)).
  - vm_compute. reflexivity.
Defined.


(* ================================================================= *)
(** * [Each] *)

Lemma read_record (r : File) (p : Z) (k v : list byte) :
  closed r = false ->
  holds (data r) p (encodeRecord (k, v)) ->
  p + recordSize (k, v) <= maxUint32 ->
  readTuple r p = Ok (len k, len v) /\
  ReadAt r (uint32 (len k + len v)) (uint32 (p + 8)) = Ok (k ++ v).
Proof.
  intros Hc H Hfit. pose proof (holds_nonneg _ _ _ H) as [Hp _].
  unfold recordSize in Hfit. cbn [fst snd] in Hfit.
  pose proof (len_nonneg k). pose proof (len_nonneg v).
  unfold encodeRecord in H. cbn [fst snd] in H. rewrite app_assoc in H.
  apply holds_app in H as [Ht Hkv].
  change (len (_ ++ _)) with 8 in Hkv.
  rewrite (readTuple_holds _ _ _ _ Hc Ht).
  rewrite !uint32_idem, !(uint32_small (len _)) by lia.
  split; [reflexivity|].
  rewrite <- len_app, !uint32_small by (rewrite ?len_app; lia).
  exact (ReadAt_holds _ _ _ Hc Hkv).
Qed.

Lemma eachLoop_done {S : Type} (fuel : nat) (cdb : CDB)
    (eachFunc : list byte -> list byte -> M S unit) (endPos pos : Z) (s : S) :
  endPos <= pos -> eachLoop fuel cdb eachFunc endPos pos s = Some (s, Ok tt).
Proof.
  intros H. destruct fuel; cbn [eachLoop];
    destruct (Z.ltb_spec pos endPos); (lia || reflexivity).
Qed.

Lemma eachLoop_records {S : Type} (cdb : CDB)
    (eachFunc : list byte -> list byte -> M S unit) (endPos : Z)
    (rs : list record) :
  closed (reader cdb) = false -> endPos <= maxUint32 ->
  forall (off : Z) (fuel : nat) (s : S),
    holds (data (reader cdb)) off (concat (map encodeRecord rs)) ->
    off + totalSize rs = endPos ->
    (length rs <= fuel)%nat ->
    eachLoop fuel cdb eachFunc endPos off s = Some (visitAll eachFunc rs s).
Proof.
  intros Hc Hmax. induction rs as [|[k v] rs IH]; intros off fuel s H Hend Hfuel.
  - change (totalSize []) with 0 in Hend.
    rewrite eachLoop_done by lia. reflexivity.
  - cbn [map concat] in H. apply holds_app in H as [Hr Hrest].
    rewrite encodeRecord_len in Hrest. rewrite totalSize_cons in Hend.
    pose proof (totalSize_nonneg rs) as Hts.
    pose proof (holds_nonneg _ _ _ Hr) as [Hoff _].
    assert (Hrs : recordSize (k, v) = 8 + len k + len v) by reflexivity.
    pose proof (len_nonneg k). pose proof (len_nonneg v).
    destruct (read_record _ _ _ _ Hc Hr) as [Et Eb]; [lia|].
    cbn [length] in Hfuel. destruct fuel as [|fuel]; [lia|].
    cbn [eachLoop visitAll]. unfold bind.
    destruct (Z.ltb_spec off endPos); [|lia].
    rewrite Et, Eb.
    destruct (Z.gtb_spec (len k) (len (k ++ v))) as [Hgt|_];
      [rewrite len_app in Hgt; lia|].
    rewrite !to_nat_len, firstn_length_app, skipn_length_app.
    destruct (eachFunc k v s) as [s' [[]|e|]]; try reflexivity.
    rewrite (uint32_small (8 + len k)) by lia.
    rewrite (uint32_small (8 + len k + len v)) by lia.
    rewrite uint32_small by lia.
    apply IH; [|lia|lia].
    now rewrite Hrs in Hrest.
Qed.

Lemma visitAll_logVisit (rs log : list record) :
  visitAll logVisit rs log = (log ++ rs, Ok tt).
Proof.
  revert log. induction rs as [|[k v] rs IH]; intros log; cbn [visitAll].
  - unfold ret. now rewrite app_nil_r.
  - unfold bind, logVisit at 1. rewrite IH, <- app_assoc. reflexivity.
Qed.

Lemma visitAll_stops {S : Type} (eachFunc : list byte -> list byte -> M S unit)
    (before after : list record) (k v : list byte) (s s1 s2 : S) (e : error) :
  visitAll eachFunc before s = (s1, Ok tt) ->
  eachFunc k v s1 = (s2, Err e) ->
  visitAll eachFunc (before ++ (k, v) :: after) s = (s2, Err e).
Proof.
  revert s. induction before as [|[k0 v0] before IH]; intros s Hb He.
  - cbn [visitAll] in Hb. unfold ret in Hb. inversion Hb; subst.
    cbn [app visitAll]. unfold bind. now rewrite He.
  - cbn [app visitAll] in *. unfold bind in *.
    destruct (eachFunc k0 v0 s) as [s' [[]|e'|]]; try discriminate.
    now apply IH.
Qed.

Lemma eachLoop_decode_error {S : Type} (fuel : nat) (cdb : CDB)
    (eachFunc : list byte -> list byte -> M S unit) (endPos pos : Z) (s : S)
    (e : error) :
  pos < endPos ->
  readTuple (reader cdb) pos = Err e \/
  (exists keyLength valueLength,
      readTuple (reader cdb) pos = Ok (keyLength, valueLength) /\
      ReadAt (reader cdb) (uint32 (keyLength + valueLength))
        (uint32 (pos + 8)) = Err e) ->
  eachLoop (Datatypes.S fuel) cdb eachFunc endPos pos s = Some (s, Err e).
Proof.
  intros Hlt H. cbn [eachLoop].
  destruct (Z.ltb_spec pos endPos); [|lia].
  destruct H as [E|(kl & vl & E1 & E2)].
  - now rewrite E.
  - now rewrite E1, E2.
Qed.

Lemma lenSum_zero (E : list (list entry)) (i : nat) :
  (forall j, (j < i)%nat -> len (nth j E []) = 0) -> lenSum E (seq 0 i) = 0.
Proof.
  induction i as [|i IH]; intros H; [reflexivity|].
  rewrite seq_S, lenSum_app, lenSum_cons. cbn [Nat.add].
  change (lenSum E []) with 0. rewrite IH by (intros; apply H; lia).
  rewrite (H i) by lia. reflexivity.
Qed.

(** C3: on a store built by N [Put]s and finished, [Each] calls the visitor
    on the N pairs that were put, in [Put] order and on nothing else: with a
    visitor that logs its arguments the log is the list of the [Put]s.  The
    scan starts at byte 2048 and ends at the offset of bucket 0, which is
    the end of the records, no larger than the offset of any bucket and
    equal to that of the first bucket with entries; it stops at the first error of the visitor and
    returns it, and on any reader a failed read of a record is returned
    without the visitor being called. *)
Theorem C3_each_completeness (how : finishing) (f : File)
    (records : list record) (cdb : CDB) :
  build how f records = Ok cdb ->
  forall (S : Type) (eachFunc : list byte -> list byte -> M S unit) (s : S)
         (fuel : nat),
    (length records <= fuel)%nat ->
    Each fuel cdb eachFunc s = Some (visitAll eachFunc records s) /\
    Each fuel cdb logVisit [] = Some (records, Ok tt) /\
    table_offset (nth 0 (cdb_index cdb) zeroTable) = 2048 + totalSize records /\
    (forall before after k v s1 s2 e,
        records = before ++ (k, v) :: after ->
        visitAll eachFunc before s = (s1, Ok tt) ->
        eachFunc k v s1 = (s2, Err e) ->
        Each fuel cdb eachFunc s = Some (s2, Err e)) /\
    (forall cdb' endPos pos n e,
        pos < endPos ->
        readTuple (reader cdb') pos = Err e \/
        (exists keyLength valueLength,
            readTuple (reader cdb') pos = Ok (keyLength, valueLength) /\
            ReadAt (reader cdb') (uint32 (keyLength + valueLength))
              (uint32 (pos + 8)) = Err e) ->
        eachLoop (Datatypes.S n) cdb' eachFunc endPos pos s = Some (s, Err e)) /\
    (forall i, (i < 256)%nat ->
        table_offset (nth 0 (cdb_index cdb) zeroTable) <=
        table_offset (nth i (cdb_index cdb) zeroTable)) /\
    (forall i, (i < 256)%nat ->
        (forall j, (j < i)%nat ->
                   table_length (nth j (cdb_index cdb) zeroTable) = 0) ->
        table_offset (nth i (cdb_index cdb) zeroTable) =
        table_offset (nth 0 (cdb_index cdb) zeroTable)).
Proof.
  intros Hb S eachFunc s fuel Hfuel.
  pose proof (build_Finished _ _ _ _ Hb) as HF.
  destruct (Finished_table records cdb 0 HF) as [E0 _]; [lia|].
  destruct (Finished_regions _ _ HF) as (_ & Hrec & _).
  pose proof (fin_fits _ _ HF) as Hfit.
  pose proof (lenSum_nonneg (entriesOf records) (seq 0 256)) as Hls.
  assert (HE : forall (T : Type) (g : list byte -> list byte -> M T unit) t,
             Each fuel cdb g t = Some (visitAll g records t)).
  { intros T g t. unfold Each. rewrite E0. cbn [table_offset seq].
    change (lenSum (entriesOf records) []) with 0.
    rewrite (uint32_small indexSize) by (unfold indexSize, maxUint32; lia).
    apply eachLoop_records; try assumption; try lia.
    exact (fin_open _ _ HF). }
  split; [apply HE|].
  split; [rewrite HE, visitAll_logVisit; reflexivity|].
  split.
  { rewrite E0. cbn [table_offset seq].
    change (lenSum (entriesOf records) []) with 0.
    change indexSize with 2048. lia. }
  split.
  { intros before after k v s1 s2 e -> H1 H2.
    rewrite HE. f_equal. exact (visitAll_stops _ _ _ _ _ _ _ _ _ H1 H2). }
  split.
  { intros cdb' endPos pos n e Hlt H. now apply eachLoop_decode_error. }
  rewrite E0. cbn [table_offset seq].
  change (lenSum (entriesOf records) []) with 0.
  split.
  - intros i Hi. destruct (Finished_table records cdb i HF Hi) as [Ei _].
    rewrite Ei. cbn [table_offset].
    pose proof (lenSum_nonneg (entriesOf records) (seq 0 i)). lia.
  - intros i Hi Hz. destruct (Finished_table records cdb i HF Hi) as [Ei _].
    rewrite Ei. cbn [table_offset]. rewrite lenSum_zero; [reflexivity|].
    intros j Hj. specialize (Hz j Hj).
    destruct (Finished_table records cdb j HF) as [Ej _]; [lia|].
    now rewrite Ej in Hz.
Qed.

Lemma C3_each_completeness_witness :
  Each 5 (storeOf ByFreeze sampleRecords) logVisit []
  = Some (sampleRecords, Ok tt).
Proof.
  refine (proj1 (proj2 (C3_each_completeness ByFreeze emptyFile sampleRecords
                          (storeOf ByFreeze sampleRecords) sampleRecords_built
                          unit (fun _ _ => ret tt) tt 5%nat _))).
  cbn. lia.
Defined.


(* ================================================================= *)
(** * The claims about the writer *)

Lemma lenSum_upd (E : list (list entry)) (t : nat) (Y : list entry) (n : nat) :
  (t < length E)%nat ->
  forall k,
    lenSum (upd t Y E) (seq k n) =
    lenSum E (seq k n) +
    (if (k <=? t)%nat && (t <? k + n)%nat
     then len Y - len (nth t E []) else 0).
Proof.
  intros Ht. induction n as [|n IH]; intros k.
  - cbn [seq]. change (lenSum _ []) with 0.
    destruct (Nat.leb_spec k t); destruct (Nat.ltb_spec t (k + 0)); cbn [andb];
      lia.
  - cbn [seq]. rewrite !lenSum_cons, IH, nth_upd by assumption.
    destruct (Nat.leb_spec (S k) t); destruct (Nat.ltb_spec t (S k + n));
      destruct (Nat.leb_spec k t); destruct (Nat.ltb_spec t (k + S n));
      destruct (Nat.eqb_spec k t) as [Heq|Hne];
      cbn [andb]; try lia.
    subst k. lia.
Qed.

(** Every [Put] leaves one pending entry. *)
Lemma lenSum_entriesOf (records : list record) :
  lenSum (entriesOf records) (seq 0 256) = len records.
Proof.
  induction records as [|[k v] l IH] using rev_ind.
  - rewrite lenSum_zero; [reflexivity|].
    intros j Hj. destruct (Nat.ltb_spec j 256) as [Hlt|Hge].
    + now rewrite nth_entriesOf.
    + rewrite nth_overflow; [reflexivity|]. rewrite entriesOf_length. lia.
  - pose proof (bucketOf_lt k) as Ht.
    rewrite entriesOf_snoc, lenSum_upd by (rewrite entriesOf_length; exact Ht).
    destruct (Nat.leb_spec 0 (bucketOf k)); [|lia].
    destruct (Nat.ltb_spec (bucketOf k) (0 + 256)); [|lia].
    cbn [andb]. rewrite IH, !len_app, !len_cons.
    change (len (@nil entry)) with 0. change (len (@nil record)) with 0. lia.
Qed.





(** ** Finishing calls after the first *)









(** A reader opened on the bytes of a finished store. *)
Lemma New_reopen_Finished (F : File) (records : list record) :
  holds (data F) 0 (storeBytes records) ->
  indexSize + totalSize records + 8 * len records <= maxUint32 ->
  New (reopen F) = Ok {| reader := reopen F; cdb_index := indexOf records |} /\
  Finished records {| reader := reopen F; cdb_index := indexOf records |}.
Proof.
  intros Hh Hfit.
  assert (Hhdr : holds (data (reopen F)) 0 (encodeIndex (indexOf records))).
  { unfold storeBytes in Hh. now apply holds_app in Hh as [Hh _]. }
  split.
  - unfold New.
    rewrite (readIndex_holds _ (indexOf records));
      [|reflexivity|apply indexOf_length|exact Hhdr].
    now rewrite decodeIndex_indexOf.
  - constructor; cbn [reader cdb_index reopen closed data]; auto.
    now rewrite lenSum_entriesOf.
Qed.

(** A [Freeze] that finds [finalizeOnce] already fired hands out a reader
    with the zero value of the index. *)
Lemma Freeze_again_zero_index (w : Writer) :
  finalizeOnce w = true -> isReaderAt (writer w) = true ->
  snd (Freeze w) = Ok {| reader := writer w; cdb_index := zeroIndex |}.
Proof.
  intros Hd Hr. unfold Freeze, bind, finalizeOnce_Do, gets, ret.
  now rewrite Hd, Hr.
Qed.








(** The earlier revision of [Put] looks at the position of the store only:
    on an open store below the ceiling it writes the record at the cursor
    and returns no error, whether or not [finalizeOnce] has fired. *)
Lemma Put_v0_accepts (w : Writer) (key value : list byte) :
  closed (writer w) = false ->
  Z.of_nat (pos (writer w)) <= maxUint32 ->
  snd (Put_v0 key value w) = Ok tt /\
  pos (writer (fst (Put_v0 key value w))) =
  (pos (writer w) + 8 + length key + length value)%nat.
Proof.
  intros Hc Hp.
  unfold Put_v0, bind, ret, gets, modify, fail, onWriter, SeekCur,
    writeTuple_v0, File_Write, set_entries, set_writer.
  cbn [writer entries finalizeOnce bufferedWriter bufferedOffset].
  rewrite Hc.
  destruct (Z.gtb_spec (Z.of_nat (pos (writer w))) maxUint32); [lia|].
  unfold bind, ret.
  cbn [writer entries finalizeOnce bufferedWriter bufferedOffset closed pos
       data fst snd].
  rewrite Hc.
  cbn [writer entries finalizeOnce bufferedWriter bufferedOffset closed pos
       data fst snd].
  split; [reflexivity|].
  rewrite length_app, !PutUint32_length. lia.
Qed.


(* ================================================================= *)
(** * Further properties of the writer and the reader *)

(** What [build] went through when it returns a reader. *)
Lemma build_inv (how : finishing) (f : File) (records : list record)
    (cdb : CDB) :
  build how f records = Ok cdb ->
  closed f = false /\
  indexSize + totalSize records + 8 * len records <= maxUint32 /\
  finish how (writerAfter (freshStore f) records) = Ok cdb.
Proof.
  unfold build. intros H.
  destruct (closed f) eqn:Hc; [now rewrite NewWriter_closed in H|].
  rewrite (NewWriter_open f Hc) in H.
  destruct (PutAll records (writerAfter (freshStore f) [])) as [w' r] eqn:HP.
  destruct r as [[]| |]; try discriminate.
  apply PutAll_writerAfter in HP as [-> Hle];
    [|change (totalSize []) with 0; unfold indexSize, maxUint32; lia].
  cbn [app] in *.
  split; [reflexivity|]. split; [|exact H].
  destruct (Z_le_gt_dec (indexSize + totalSize records + 8 * len records)
              maxUint32) as [Hfit|Hover]; [exact Hfit|].
  exfalso. pose proof (lenSum_entriesOf records) as HL.
  destruct (finalizeOnce_Do_overflow (freshStore f) records) as (w' & E & _).
  - rewrite HL. exact Hover.
  - rewrite HL. lia.
  - destruct how; unfold finish, Freeze, Close, bind in H; rewrite E in H;
      discriminate.
Qed.

Lemma storeBytes_length (records : list record) :
  len (storeBytes records) = indexSize + totalSize records + 8 * len records.
Proof.
  unfold storeBytes.
  rewrite !len_app, encodeIndex_len by apply indexOf_length.
  rewrite len_concat_records, len_concat_tables, lenSum_entriesOf. lia.
Qed.

Lemma finalStore_data (f : File) (b : list byte) (idx : index) :
  length idx = 256%nat ->
  data (finalStore (freshStore f) b idx) =
  (encodeIndex idx ++ b) ++
  skipn (length (encodeIndex idx ++ b)) (data f).
Proof.
  intros Hl. unfold finalStore, freshStore. cbn [data pos].
  rewrite <- (repeat_length x00 (Z.to_nat indexSize)) at 2.
  rewrite write_at_app, write_at_0.
  assert (E : length (encodeIndex idx) = Z.to_nat indexSize)
    by (rewrite encodeIndex_length, Hl; reflexivity).
  rewrite <- (repeat_length x00 (Z.to_nat indexSize)) at 1.
  rewrite E at 1.
  rewrite <- (repeat_length x00 (Z.to_nat indexSize)) at 1.
  rewrite skipn_length_app, <- app_assoc.
  rewrite skipn_skipn, length_app, E.
  rewrite (Nat.add_comm (length b)). reflexivity.
Qed.

Lemma finish_data (how : finishing) (f : File) (records : list record)
    (cdb : CDB) :
  closed f = false ->
  indexSize + totalSize records + 8 * len records <= maxUint32 ->
  finish how (writerAfter (freshStore f) records) = Ok cdb ->
  cdb_index cdb = indexOf records /\
  data (reader cdb) =
  storeBytes records ++ skipn (length (storeBytes records)) (data f).
Proof.
  intros Hc Hfit H.
  assert (Hfit' : indexSize + totalSize records +
                  8 * lenSum (entriesOf records) (seq 0 256) <= maxUint32)
    by (rewrite lenSum_entriesOf; exact Hfit).
  pose proof (finalStore_data f
                (concat (map encodeRecord records) ++
                 concat (map (encodeTable (entriesOf records)) (seq 0 256)))
                (indexOf records) (indexOf_length records)) as HD.
  fold (storeBytes records) in HD.
  destruct how.
  - unfold finish, Freeze, bind in H.
    rewrite (finalizeOnce_Do_writerAfter f records Hc Hfit') in H.
    unfold gets, ret, fail in H.
    cbn [writer finalStore freshStore isReaderAt snd] in H.
    destruct (isReaderAt f); cbn [snd] in H; [|discriminate H].
    inversion H; subst. cbn [cdb_index reader]. split; [reflexivity|exact HD].
  - destruct (finish_writerAfter ByClose f records Hc Hfit') as (c & E & HF);
      [discriminate|].
    rewrite E in H. inversion H; subst c.
    split; [exact (fin_index _ _ HF)|].
    revert E. unfold finish, Close, bind.
    rewrite (finalizeOnce_Do_writerAfter f records Hc Hfit').
    unfold gets, ret, onWriter, File_Close, set_writer.
    cbn [writer finalStore freshStore isCloser closed].
    revert HD.
    generalize (finalStore (freshStore f)
                  (concat (map encodeRecord records) ++
                   concat (map (encodeTable (entriesOf records)) (seq 0 256)))
                  (indexOf records)).
    intros F HD. cbn [writer].
    destruct (isCloser f); cbn [writer]; [destruct (closed F)|];
      cbn [writer]; try discriminate; unfold New;
      match goal with |- context [readIndex ?r] => destruct (readIndex r) end;
      intros E; inversion E; subst; cbn [reader reopen data]; exact HD.
Qed.

(** X1: the file a finished database leaves is, bit for bit, the header
    (256 little-endian offset and length pairs), the records in [Put]
    order and the 256 tables, each entry in [Put] order; [NewWriter] does
    not truncate, so what the file held beyond that length stays behind
    it.  On a file that was no longer than the database, the file is the
    database and its length is [2048 + sum (8 + len key + len value) +
    8 * N]. *)
Theorem store_bytes_exact (how : finishing) (f : File)
    (records : list record) (cdb : CDB) :
  build how f records = Ok cdb ->
  data (reader cdb) =
    storeBytes records ++ skipn (length (storeBytes records)) (data f) /\
  len (storeBytes records) = 2048 + totalSize records + 8 * len records /\
  (len (data f) <= len (storeBytes records) ->
   data (reader cdb) = storeBytes records).
Proof.
  intros Hb. destruct (build_inv _ _ _ _ Hb) as (Hc & Hfit & Hfin).
  destruct (finish_data _ _ _ _ Hc Hfit Hfin) as [_ HD].
  split; [exact HD|]. split; [apply storeBytes_length|].
  intros Hshort. rewrite HD, skipn_all2, app_nil_r; [reflexivity|].
  unfold len in Hshort. lia.
Qed.

Lemma store_bytes_exact_witness :
  data (reader (storeOf ByClose sampleRecords)) = storeBytes sampleRecords.
Proof.
  refine (proj2 (proj2 (store_bytes_exact ByClose emptyFile sampleRecords
                          (storeOf ByClose sampleRecords) _)) _).
  - vm_compute. reflexivity.
  - rewrite storeBytes_length. vm_compute. intros H. discriminate H.
Defined.


Lemma Each_Finished {S : Type} (records : list record) (cdb : CDB)
    (eachFunc : list byte -> list byte -> M S unit) (s : S) (fuel : nat) :
  Finished records cdb -> (length records <= fuel)%nat ->
  Each fuel cdb eachFunc s = Some (visitAll eachFunc records s).
Proof.
  intros HF Hfuel.
  destruct (Finished_table records cdb 0 HF) as [E0 _]; [lia|].
  destruct (Finished_regions _ _ HF) as (_ & Hrec & _).
  pose proof (fin_fits _ _ HF) as Hfit.
  pose proof (lenSum_nonneg (entriesOf records) (seq 0 256)) as Hls.
  unfold Each. rewrite E0. cbn [table_offset seq].
  change (lenSum (entriesOf records) []) with 0.
  rewrite (uint32_small indexSize) by (unfold indexSize, maxUint32; lia).
  apply eachLoop_records; try assumption; try lia.
  exact (fin_open _ _ HF).
Qed.

(** X2: a database finished without a [Put] is a header alone, in which
    every bucket has offset 2048 and length 0; on an open store (readable,
    for [Freeze]) it is always produced; [Get] finds no key in it and
    [Each] calls the visitor not once. *)
Theorem empty_database (how : finishing) (f : File) :
  closed f = false ->
  (how = ByFreeze -> isReaderAt f = true) ->
  exists cdb,
    build how f [] = Ok cdb /\
    (forall i, (i < 256)%nat ->
       nth i (cdb_index cdb) zeroTable
       = {| table_offset := 2048; table_length := 0 |}) /\
    firstn 2048 (data (reader cdb))
    = encodeIndex (repeat {| table_offset := 2048; table_length := 0 |} 256) /\
    (forall key, Get cdb key = Some (Ok None)) /\
    (forall (S : Type) (eachFunc : list byte -> list byte -> M S unit)
            (s : S) (fuel : nat),
       Each fuel cdb eachFunc s = Some (s, Ok tt)).
Proof.
  intros Hc Hr.
  destruct (build_succeeds how f [] Hc) as [cdb Hb]; [|exact Hr|].
  { rewrite lenSum_entriesOf. change (totalSize []) with 0.
    change (len (@nil record)) with 0. unfold indexSize, maxUint32. lia. }
  exists cdb. split; [exact Hb|].
  pose proof (build_Finished _ _ _ _ Hb) as HF.
  assert (HT : forall i, (i < 256)%nat ->
             nth i (cdb_index cdb) zeroTable
             = {| table_offset := 2048; table_length := 0 |}).
  { intros i Hi. destruct (Finished_table [] cdb i HF Hi) as [E _].
    rewrite E. rewrite nth_entriesOf by assumption.
    rewrite lenSum_zero; [reflexivity|].
    intros j Hj. rewrite nth_entriesOf by lia. reflexivity. }
  split; [exact HT|]. split; [|split].
  - destruct (Finished_regions _ _ HF) as ((pre & post & Hd & Hp) & _).
    apply len_nil_inv in Hp. subst pre. cbn [app] in Hd. rewrite Hd.
    assert (EI : indexOf [] =
                 repeat {| table_offset := 2048; table_length := 0 |} 256).
    { apply (nth_ext _ _ zeroTable zeroTable).
      - now rewrite indexOf_length, repeat_length.
      - intros n Hn. rewrite indexOf_length in Hn.
        rewrite <- (fin_index _ _ HF), (HT n Hn).
        symmetry. apply nth_repeat_lt. exact Hn. }
    rewrite EI.
    replace 2048%nat with
      (length (encodeIndex
                 (repeat {| table_offset := 2048; table_length := 0 |} 256)))
      by (rewrite encodeIndex_length, repeat_length; reflexivity).
    apply firstn_length_app.
  - intros key. apply (Get_empty_bucket cdb key 0).
    now rewrite (HT _ (bucketOf_lt key)).
  - intros S eachFunc s fuel. unfold Each.
    rewrite (HT 0%nat) by lia. cbn [table_offset].
    apply eachLoop_done. unfold uint32, indexSize. cbn. lia.
Qed.

Lemma empty_database_witness :
  exists cdb,
    build ByClose emptyFile [] = Ok cdb /\
    Get cdb (bytes "foo") = Some (Ok None).
Proof.
  destruct (empty_database ByClose emptyFile eq_refl)
    as (cdb & Hb & _ & _ & HG & _); [discriminate|].
  exists cdb. split; [exact Hb|apply HG].
Defined.

(** X3: keys may be put more than once.  [Get] then returns one of the
    values put under the key (as long as the bucket of the key holds no key
    of hash 0): a value of another key is never returned, and the key is
    never reported missing. *)
Theorem duplicate_keys (how : finishing) (f : File) (records : list record)
    (cdb : CDB) (key : list byte) :
  build how f records = Ok cdb ->
  In key (map fst records) ->
  (forall k v, In (k, v) records -> bucketOf k = bucketOf key ->
               keyHash k <> 0) ->
  exists value,
    Get cdb key = Some (Ok (Some value)) /\ In (key, value) records.
Proof.
  intros Hb Hin Hnz. pose proof (build_Finished _ _ _ _ Hb) as HF.
  rewrite (Get_scan records cdb key HF).
  apply in_map_iff in Hin as [[k v0] [Ek Hin]]. cbn [fst] in Ek. subst k.
  destruct (In_bucketFor records key v0 Hin) as [p0 Hp0].
  destruct (scan_cases key (probed records key)) as [[v E]|[E|E]].
  - exists v. rewrite E. split; [reflexivity|].
    destruct (scan_Hit _ _ _ E) as [p Hp].
    apply probed_In, bucketFor_In in Hp as [Hp _].
    exact (placed_In _ _ _ _ Hp).
  - exfalso. destruct (scan_EmptySlot _ _ E) as (p & k & v & Hp & Hz).
    apply probed_In, bucketFor_In in Hp as [Hp Hbk].
    exact (Hnz k v (placed_In _ _ _ _ Hp) Hbk Hz).
  - exfalso. rewrite scan_FullCycle in E.
    destruct (E p0 key v0) as [_ N]; [now apply probed_In|]. now apply N.
Qed.

Lemma duplicate_keys_witness :
  exists value,
    Get (storeOf ByFreeze [(bytes "a", bytes "1"); (bytes "a", bytes "2")])
      (bytes "a") = Some (Ok (Some value)) /\
    In (bytes "a", value) [(bytes "a", bytes "1"); (bytes "a", bytes "2")].
Proof.
  refine (duplicate_keys ByFreeze emptyFile
            [(bytes "a", bytes "1"); (bytes "a", bytes "2")]
            (storeOf ByFreeze [(bytes "a", bytes "1"); (bytes "a", bytes "2")])
            (bytes "a") _ _ _).
  - vm_compute. reflexivity.
  - cbn. tauto.
  - intros k v Hin _. cbn in Hin.
    decompose [or] Hin; try contradiction;
      match goal with [ E : _ = (k, v) |- _ ] => inversion E; subst end;
      vm_compute; intros HZ; discriminate HZ.
Defined.

(** X4: the reader [Freeze] hands out and a reader opened with [New] on
    the file after [Close] are the same database: the index [finalize]
    returned is the index decoded from the header, the bytes are the same,
    and [Get] and [Each] give the same results. *)
Theorem freeze_agrees_with_reopen (f : File) (records : list record)
    (frozen reopened : CDB) :
  build ByFreeze f records = Ok frozen ->
  build ByClose f records = Ok reopened ->
  cdb_index frozen = cdb_index reopened /\
  data (reader frozen) = data (reader reopened) /\
  (forall key, Get frozen key = Get reopened key) /\
  (forall (S : Type) (eachFunc : list byte -> list byte -> M S unit) (s : S)
          (fuel : nat),
     (length records <= fuel)%nat ->
     Each fuel frozen eachFunc s = Each fuel reopened eachFunc s).
Proof.
  intros H1 H2.
  destruct (build_inv _ _ _ _ H1) as (Hc & Hfit & Hf1).
  destruct (build_inv _ _ _ _ H2) as (_ & _ & Hf2).
  destruct (finish_data _ _ _ _ Hc Hfit Hf1) as [I1 D1].
  destruct (finish_data _ _ _ _ Hc Hfit Hf2) as [I2 D2].
  pose proof (build_Finished _ _ _ _ H1) as F1.
  pose proof (build_Finished _ _ _ _ H2) as F2.
  split; [congruence|]. split; [congruence|]. split.
  - intros key. now rewrite (Get_scan records _ key F1), (Get_scan records _ key F2).
  - intros S eachFunc s fuel Hfuel.
    now rewrite (Each_Finished records _ _ _ _ F1 Hfuel),
      (Each_Finished records _ _ _ _ F2 Hfuel).
Qed.

Lemma freeze_agrees_with_reopen_witness :
  Get (storeOf ByFreeze sampleRecords) (bytes "foo")
  = Get (storeOf ByClose sampleRecords) (bytes "foo").
Proof.
  refine (proj1 (proj2 (proj2
            (freeze_agrees_with_reopen emptyFile sampleRecords
               (storeOf ByFreeze sampleRecords) (storeOf ByClose sampleRecords)
               sampleRecords_built _))) (bytes "foo")).
  vm_compute. reflexivity.
Defined.


(** ** Readers on arbitrary stores *)

Lemma lor_bound (a b n : Z) :
  0 <= a -> 0 <= b -> a + b < n -> 0 <= Z.lor a b < n.
Proof.
  intros Ha Hb Hn.
  pose proof (Z.add_lor_land a b) as E.
  assert (0 <= Z.land a b) by (apply Z.land_nonneg; lia).
  assert (0 <= Z.lor a b) by (apply Z.lor_nonneg; lia).
  lia.
Qed.

Lemma Uint32_range (b : list byte) : 0 <= LittleEndian.Uint32 b < 2 ^ 32.
Proof.
  unfold LittleEndian.Uint32.
  destruct b as [|b0 [|b1 [|b2 [|b3 rest]]]]; try lia.
  pose proof (Z_of_byte_range b0). pose proof (Z_of_byte_range b1).
  pose proof (Z_of_byte_range b2). pose proof (Z_of_byte_range b3).
  rewrite !Z.shiftl_mul_pow2 by lia.
  change (2 ^ 8) with 256. change (2 ^ 16) with 65536.
  change (2 ^ 24) with 16777216. change (2 ^ 32) with 4294967296.
  assert (H23 : 0 <= Z.lor (Z_of_byte b2 * 65536) (Z_of_byte b3 * 16777216)
                < 4294967296 - 65535) by (apply lor_bound; lia).
  assert (H13 : 0 <= Z.lor (Z_of_byte b1 * 256)
                      (Z.lor (Z_of_byte b2 * 65536) (Z_of_byte b3 * 16777216))
                < 4294967296 - 255) by (apply lor_bound; lia).
  apply lor_bound; lia.
Qed.


Lemma New_ok (r : File) :
  closed r = false -> 2048 <= len (data r) ->
  New r = Ok {| reader := r; cdb_index := decodeIndex (firstn 2048 (data r)) |}.
Proof.
  intros Hc Hl. unfold New, readIndex, ReadAt. rewrite Hc.
  change (indexSize =? 0) with false. cbv iota.
  destruct (Z.leb_spec (0 + indexSize) (len (data r))) as [_|N];
    [|unfold indexSize in N; lia].
  change (Z.to_nat indexSize) with 2048%nat. change (Z.to_nat 0) with 0%nat.
  reflexivity.
Qed.

Lemma nth_decodeIndex (buf : list byte) (i : nat) :
  (i < 256)%nat ->
  nth i (decodeIndex buf) zeroTable =
  {| table_offset := LittleEndian.Uint32 (firstn 4 (skipn (i * 8) buf));
     table_length := LittleEndian.Uint32 (firstn 4 (skipn (i * 8 + 4) buf)) |}.
Proof. intros Hi. unfold decodeIndex. now rewrite nth_map_seq. Qed.

Lemma firstn_skipn_firstn {A : Type} (l : list A) (a b n : nat) :
  (a + b <= n)%nat -> firstn b (skipn a (firstn n l)) = firstn b (skipn a l).
Proof.
  intros H. rewrite skipn_firstn_comm, firstn_firstn.
  f_equal. lia.
Qed.

(** The reader [New] returns on an open store of 2048 bytes or more. *)
Lemma New_ok_tables (r : File) :
  closed r = false -> 2048 <= len (data r) ->
  exists cdb,
    New r = Ok cdb /\ reader cdb = r /\
    length (cdb_index cdb) = 256%nat /\
    forall i, (i < 256)%nat ->
      let t := nth i (cdb_index cdb) zeroTable in
      table_offset t = LittleEndian.Uint32 (firstn 4 (skipn (8 * i) (data r))) /\
      table_length t
      = LittleEndian.Uint32 (firstn 4 (skipn (8 * i + 4) (data r))) /\
      0 <= table_offset t <= maxUint32 /\
      0 <= table_length t <= maxUint32.
Proof.
  intros Hc Hl. eexists. split; [exact (New_ok r Hc Hl)|].
  cbn [reader cdb_index]. split; [reflexivity|].
  split; [unfold decodeIndex; now rewrite length_map, length_seq|].
  intros i Hi. cbv zeta. rewrite (nth_decodeIndex _ i Hi).
  cbn [table_offset table_length].
  rewrite !firstn_skipn_firstn by lia.
  rewrite (Nat.mul_comm 8 i).
  pose proof (Uint32_range (firstn 4 (skipn (i * 8) (data r)))).
  pose proof (Uint32_range (firstn 4 (skipn (i * 8 + 4) (data r)))).
  unfold maxUint32. repeat split; lia.
Qed.

(** X5: [New] on any store.  On a closed handle it returns the error of the
    read; on a file shorter than the 2048 bytes of the header it returns
    [io.EOF]; on every other file it returns a reader, whatever the bytes
    are: table [i] of its index is read from bytes [8i .. 8i+7] as two
    little-endian words. *)
Theorem New_on_any_store (r : File) :
  (closed r = true -> New r = Err ErrClosed) /\
  (closed r = false -> len (data r) < 2048 -> New r = Err EOF) /\
  (closed r = false -> 2048 <= len (data r) ->
   exists cdb,
     New r = Ok cdb /\ reader cdb = r /\
     length (cdb_index cdb) = 256%nat /\
     forall i, (i < 256)%nat ->
       let t := nth i (cdb_index cdb) zeroTable in
       table_offset t = LittleEndian.Uint32 (firstn 4 (skipn (8 * i) (data r))) /\
       table_length t
       = LittleEndian.Uint32 (firstn 4 (skipn (8 * i + 4) (data r))) /\
       0 <= table_offset t <= maxUint32 /\
       0 <= table_length t <= maxUint32).
Proof.
  split; [|split].
  - intros Hc. unfold New, readIndex, ReadAt. now rewrite Hc.
  - intros Hc Hl. unfold New, readIndex, ReadAt. rewrite Hc.
    change (indexSize =? 0) with false. cbv iota.
    destruct (Z.leb_spec (0 + indexSize) (len (data r))) as [N|_];
      [unfold indexSize in N; lia|reflexivity].
  - exact (New_ok_tables r).
Qed.

Lemma New_on_any_store_witness :
  New {| data := bytes "too short"; pos := 0; closed := false;
         isCloser := true; isReaderAt := true |} = Err EOF /\
  New {| data := []; pos := 0; closed := true;
         isCloser := true; isReaderAt := true |} = Err ErrClosed.
Proof.
  split.
  - apply (proj1 (proj2 (New_on_any_store
       {| data := bytes "too short"; pos := 0; closed := false;
          isCloser := true; isReaderAt := true |}))).
    + reflexivity.
    + vm_compute. reflexivity.
  - apply (proj1 (New_on_any_store
       {| data := []; pos := 0; closed := true;
          isCloser := true; isReaderAt := true |})).
    reflexivity.
Defined.

(** X6: on a reader [New] returned, whatever the file holds, the probe loop
    of [Get] is left after at most [table.length] iterations: [Get] always
    returns (a value, not found, an error or a panic). *)
Theorem Get_returns_on_any_store (r : File) (cdb : CDB) (key : list byte) :
  New r = Ok cdb ->
  exists res, Get cdb key = Some res.
Proof.
  intros HN.
  assert (Hc : closed r = false /\ 2048 <= len (data r)).
  { unfold New, readIndex, ReadAt in HN.
    destruct (closed r); [discriminate HN|]. split; [reflexivity|].
    change (indexSize =? 0) with false in HN. cbv iota in HN.
    destruct (Z.leb_spec (0 + indexSize) (len (data r))) as [L|_];
      [unfold indexSize in L; lia|discriminate HN]. }
  destruct Hc as [Hc Hl].
  destruct (New_ok_tables r Hc Hl) as (cdb' & E & _ & _ & HT).
  assert (cdb' = cdb) by congruence. subst cdb'.
  destruct (Get cdb key) as [res|] eqn:EG; [eauto|].
  exfalso. apply (Get_total cdb key); [|exact EG].
  destruct (HT (bucketOf key) (bucketOf_lt key)) as (_ & _ & _ & HL).
  exact HL.
Qed.

Lemma Get_returns_on_any_store_witness :
  exists res,
    Get {| reader := {| data := repeat xff 2048; pos := 0; closed := false;
                        isCloser := true; isReaderAt := true |};
           cdb_index := decodeIndex (firstn 2048 (repeat xff 2048)) |}
        (bytes "foo") = Some res.
Proof.
  apply (Get_returns_on_any_store
           {| data := repeat xff 2048; pos := 0; closed := false;
              isCloser := true; isReaderAt := true |}).
  apply New_ok; [reflexivity|].
  cbn [data]. unfold len. rewrite repeat_length. lia.
Defined.




(** ** Finishing calls that fail *)

Lemma oversized_size : recordSize oversized = 8 + 1 + 2 ^ 32.
Proof.
  unfold recordSize, oversized. cbn [fst snd].
  unfold len. rewrite repeat_length, Z2Nat.id by lia. reflexivity.
Qed.


(** X8: [Freeze] on a store without a [ReadAt] method returns
    [os.ErrInvalid], but only after [finalize] has run: the database is
    complete in the store, and closing the writer and opening the file
    gives a reader on the records put. *)
Theorem Freeze_without_ReaderAt (f : File) (records : list record) :
  closed f = false -> isReaderAt f = false ->
  indexSize + totalSize records + 8 * len records <= maxUint32 ->
  let w := writerAfter (freshStore f) records in
  snd (Freeze w) = Err ErrInvalid /\
  finalizeOnce (fst (Freeze w)) = true /\
  holds (data (writer (fst (Freeze w)))) 0 (storeBytes records) /\
  exists cdb,
    finish ByClose (fst (Freeze w)) = Ok cdb /\ Finished records cdb.
Proof.
  intros Hc Hr Hfit w.
  assert (Hfit' : indexSize + totalSize records +
                  8 * lenSum (entriesOf records) (seq 0 256) <= maxUint32)
    by now rewrite lenSum_entriesOf.
  pose proof (finalStore_holds f
                (concat (map encodeRecord records) ++
                 concat (map (encodeTable (entriesOf records)) (seq 0 256)))
                (indexOf records) (indexOf_length records)) as Hh.
  assert (EF : Freeze w =
    ({| writer :=
          finalStore (freshStore f)
            (concat (map encodeRecord records) ++
             concat (map (encodeTable (entriesOf records)) (seq 0 256)))
            (indexOf records);
        entries := entriesOf records; finalizeOnce := true;
        bufferedWriter := None;
        bufferedOffset :=
          indexSize + totalSize records +
          8 * lenSum (entriesOf records) (seq 0 256) |}, Err ErrInvalid)).
  { unfold w, Freeze, bind.
    rewrite (finalizeOnce_Do_writerAfter f records Hc Hfit').
    unfold gets, ret, fail. cbn [writer finalStore freshStore isReaderAt].
    now rewrite Hr. }
  rewrite EF. cbn [fst snd finalizeOnce writer].
  split; [reflexivity|]. split; [reflexivity|]. split; [exact Hh|].
  assert (Hcl : closed (finalStore (freshStore f)
              (concat (map encodeRecord records) ++
               concat (map (encodeTable (entriesOf records)) (seq 0 256)))
              (indexOf records)) = false) by reflexivity.
  revert Hh Hcl. generalize (finalStore (freshStore f)
              (concat (map encodeRecord records) ++
               concat (map (encodeTable (entriesOf records)) (seq 0 256)))
              (indexOf records)).
  intros F Hh Hcl.
  destruct (New_reopen_Finished F records Hh Hfit) as [HN HF].
  unfold finish, Close, bind, finalizeOnce_Do. cbn [finalizeOnce].
  unfold gets, ret, onWriter, File_Close, set_writer. cbn [writer].
  destruct (isCloser F); cbn [writer]; rewrite ?Hcl; cbn [writer];
    eexists; (split; [exact HN|exact HF]).
Qed.

Lemma Freeze_without_ReaderAt_witness :
  snd (Freeze (writerAfter (freshStore writeOnlyFile) sampleRecords))
  = Err ErrInvalid.
Proof.
  refine (proj1 (Freeze_without_ReaderAt writeOnlyFile sampleRecords
                   eq_refl eq_refl _)).
  vm_compute. intros HZ. discriminate HZ.
Defined.






(** ** The hash tables of a finished store *)

(** Slot [j] of table [i], read the way [Get] reads it. *)
Lemma slot_record (records : list record) (cdb : CDB) (i j : nat) (p : Z)
    (k v : list byte) :
  Finished records cdb -> (i < 256)%nat ->
  (j < length (bucket i (placed indexSize records)))%nat ->
  nth j (bucket i (placed indexSize records)) (0, ([], [])) = (p, (k, v)) ->
  readTuple (reader cdb)
    (uint32 (table_offset (nth i (cdb_index cdb) zeroTable) +
             uint32 (8 * Z.of_nat j))) = Ok (keyHash k, p) /\
  getValueAt cdb p k = Ok (Some v) /\
  In (k, v) records /\ bucketOf k = i.
Proof.
  intros HF Hb Hj Hn.
  set (ps := bucket i (placed indexSize records)) in *.
  destruct (Finished_table _ _ _ HF Hb) as [Htbl Hfit].
  pose proof (holds_table _ _ _ HF Hb) as Ht.
  unfold encodeTable in Ht.
  rewrite nth_entriesOf in Hfit, Ht by assumption.
  fold ps in Hfit, Ht.
  assert (Hlen : len (map entryOf ps) = len ps)
    by (unfold len; now rewrite length_map).
  rewrite Hlen in Hfit.
  pose proof (lenSum_nonneg (entriesOf records) (seq 0 i)) as Hs.
  pose proof (totalSize_nonneg records) as Hts.
  apply (holds_entry _ _ _ j (entryOf (0, ([], [])))) in Ht;
    [|now rewrite length_map].
  rewrite map_nth, Hn in Ht.
  assert (Hin : In (p, (k, v)) ps) by (rewrite <- Hn; now apply nth_In).
  destruct (bucket_In i _ _ Hin) as [Hpl Hbk]. cbn [fst snd] in Hbk.
  destruct (Finished_regions _ _ HF) as (_ & Hrec & _).
  destruct (holds_placed _ _ _ _ _ Hrec Hpl) as (Hh & Hlo & Hhi).
  assert (HjL : Z.of_nat j < len ps) by (unfold len; lia).
  pose proof (recordSize_pos (k, v)) as Hrs.
  rewrite Htbl. cbn [table_offset].
  rewrite (uint32_small (8 * Z.of_nat j)) by (unfold indexSize in *; lia).
  rewrite uint32_small by (unfold indexSize in *; lia).
  unfold encodeEntry, entryOf in Ht. cbn [hash offset fst snd] in Ht.
  rewrite (readTuple_holds _ _ _ _ (fin_open _ _ HF) Ht).
  rewrite uint32_idem.
  rewrite (uint32_small (keyHash k))
    by (pose proof (keyHash_range k); unfold maxUint32; lia).
  rewrite (uint32_small p) by (unfold indexSize in *; lia).
  split; [reflexivity|]. split.
  - rewrite (getValueAt_record cdb p k v k (fin_open _ _ HF) Hh)
      by (unfold indexSize in *; lia).
    destruct (bytes_eq_dec k k); [reflexivity|contradiction].
  - split; [exact (placed_In _ _ _ _ Hpl)|exact Hbk].
Qed.

(** X11: the hash tables of a finished database index exactly the records
    put.  Every slot of every table holds the hash of the key of a record
    of that bucket and the position at which [getValueAt] finds that
    record; and every record put has such a slot in the table of its
    bucket.  No slot is empty: a table has as many slots as its bucket has
    records. *)
Theorem tables_index_the_records (how : finishing) (f : File)
    (records : list record) (cdb : CDB) :
  build how f records = Ok cdb ->
  (forall (i : nat) (slot : Z),
     (i < 256)%nat ->
     0 <= slot < table_length (nth i (cdb_index cdb) zeroTable) ->
     exists p k v,
       readTuple (reader cdb)
         (uint32 (table_offset (nth i (cdb_index cdb) zeroTable) +
                  uint32 (8 * slot))) = Ok (keyHash k, p) /\
       getValueAt cdb p k = Ok (Some v) /\
       In (k, v) records /\ bucketOf k = i) /\
  (forall k v,
     In (k, v) records ->
     exists (slot p : Z),
       0 <= slot < table_length (nth (bucketOf k) (cdb_index cdb) zeroTable) /\
       readTuple (reader cdb)
         (uint32 (table_offset (nth (bucketOf k) (cdb_index cdb) zeroTable) +
                  uint32 (8 * slot))) = Ok (keyHash k, p) /\
       getValueAt cdb p k = Ok (Some v)).
Proof.
  intros Hb. pose proof (build_Finished _ _ _ _ Hb) as HF.
  assert (HL : forall i, (i < 256)%nat ->
             table_length (nth i (cdb_index cdb) zeroTable)
             = len (bucket i (placed indexSize records))).
  { intros i Hi. destruct (Finished_table _ _ _ HF Hi) as [-> _].
    cbn [table_length]. rewrite nth_entriesOf by assumption.
    unfold len. now rewrite length_map. }
  split.
  - intros i slot Hi Hslot. rewrite (HL i Hi) in Hslot. unfold len in Hslot.
    assert (Hj : (Z.to_nat slot < length (bucket i (placed indexSize records)))%nat)
      by (unfold record in *; lia).
    destruct (nth (Z.to_nat slot) (bucket i (placed indexSize records))
                (0, ([], []))) as [p [k v]] eqn:Hn.
    exists p, k, v.
    pose proof (slot_record records cdb i (Z.to_nat slot) p k v HF Hi Hj Hn)
      as H.
    rewrite Z2Nat.id in H by lia. exact H.
  - intros k v Hin.
    destruct (In_bucketFor records k v Hin) as [p Hp].
    unfold bucketFor in Hp.
    destruct (In_nth _ _ (0, ([], [])) Hp) as (j & Hj & Hn).
    exists (Z.of_nat j), p.
    rewrite (HL _ (bucketOf_lt k)). unfold len.
    split; [unfold record in *; lia|].
    destruct (slot_record records cdb (bucketOf k) j p k v HF
                (bucketOf_lt k) Hj Hn) as (H1 & H2 & _).
    split; assumption.
Qed.

Lemma tables_index_the_records_witness :
  exists (slot p : Z),
    0 <= slot < table_length
                  (nth (bucketOf (bytes "snush"))
                     (cdb_index (storeOf ByClose sampleRecords)) zeroTable) /\
    readTuple (reader (storeOf ByClose sampleRecords))
      (uint32 (table_offset
                 (nth (bucketOf (bytes "snush"))
                    (cdb_index (storeOf ByClose sampleRecords)) zeroTable) +
               uint32 (8 * slot))) = Ok (keyHash (bytes "snush"), p) /\
    getValueAt (storeOf ByClose sampleRecords) p (bytes "snush")
    = Ok (Some (bytes "collision!")).
Proof.
  refine (proj2 (tables_index_the_records ByClose emptyFile sampleRecords
                   (storeOf ByClose sampleRecords) _)
            (bytes "snush") (bytes "collision!") _).
  - vm_compute. reflexivity.
  - cbn. tauto.
Defined.

Lemma lenSum_seq_S (E : list (list entry)) (i : nat) :
  lenSum E (seq 0 (S i)) = lenSum E (seq 0 i) + len (nth i E []).
Proof.
  rewrite seq_S, lenSum_app. cbn [Nat.add]. rewrite lenSum_cons.
  change (lenSum E []) with 0. lia.
Qed.

(** X12: the index of a finished database describes 256 tables laid out
    back to back in bucket order, without padding: each table starts where
    the one before ends, the last one ends with the database, and all the
    tables together have one slot of 8 bytes per record put. *)
Theorem tables_are_contiguous (how : finishing) (f : File)
    (records : list record) (cdb : CDB) :
  build how f records = Ok cdb ->
  (forall i, (S i < 256)%nat ->
     table_offset (nth (S i) (cdb_index cdb) zeroTable)
     = table_offset (nth i (cdb_index cdb) zeroTable) +
       8 * table_length (nth i (cdb_index cdb) zeroTable)) /\
  table_offset (nth 255 (cdb_index cdb) zeroTable) +
  8 * table_length (nth 255 (cdb_index cdb) zeroTable)
  = len (storeBytes records) /\
  fold_right (fun i acc => table_length (nth i (cdb_index cdb) zeroTable) + acc)
    0 (seq 0 256) = len records.
Proof.
  intros Hb. pose proof (build_Finished _ _ _ _ Hb) as HF.
  split; [|split].
  - intros i Hi.
    destruct (Finished_table _ _ _ HF Hi) as [-> _].
    destruct (Finished_table records cdb i HF) as [-> _]; [lia|].
    cbn [table_offset table_length]. rewrite lenSum_seq_S. lia.
  - destruct (Finished_table records cdb 255 HF) as [-> _]; [lia|].
    cbn [table_offset table_length].
    rewrite storeBytes_length, <- (lenSum_entriesOf records).
    rewrite (lenSum_seq_S (entriesOf records) 255). lia.
  - rewrite <- (lenSum_entriesOf records).
    assert (G : forall l, (forall i, In i l -> (i < 256)%nat) ->
              fold_right
                (fun i acc =>
                   table_length (nth i (cdb_index cdb) zeroTable) + acc) 0 l
              = lenSum (entriesOf records) l).
    { induction l as [|i l IH]; intros Hl; [reflexivity|].
      cbn [fold_right]. rewrite lenSum_cons, IH
        by (intros; apply Hl; now right).
      destruct (Finished_table records cdb i HF) as [-> _];
        [apply Hl; now left|]. reflexivity. }
    apply G. intros i Hi. apply in_seq in Hi. lia.
Qed.

Lemma tables_are_contiguous_witness :
  table_offset (nth 255 (cdb_index (storeOf ByFreeze sampleRecords)) zeroTable) +
  8 * table_length
        (nth 255 (cdb_index (storeOf ByFreeze sampleRecords)) zeroTable)
  = len (storeBytes sampleRecords).
Proof.
  refine (proj1 (proj2 (tables_are_contiguous ByFreeze emptyFile sampleRecords
                          (storeOf ByFreeze sampleRecords) _))).
  exact sampleRecords_built.
Defined.


(** ** The hash as a [hash.Hash32], tuples and [readAt] *)

(** X13: the digest can be fed in pieces.  Two [Write]s give the state one
    [Write] of the concatenation gives, [Sum32] after [Write]s from a new or
    [Reset] digest is [CDBHashSum32] of all the bytes written, and the
    value stays within 32 bits. *)
Theorem hash_streaming (h : cdbHash) (a b : list byte) :
  cdbHash_Write (cdbHash_Write h a) b = cdbHash_Write h (a ++ b) /\
  Sum32 (cdbHash_Write (cdbHash_Write newCDBHash a) b) = CDBHashSum32 (a ++ b) /\
  Sum32 (cdbHash_Write (cdbHash_Reset (cdbHash_Write h a)) b) = CDBHashSum32 b /\
  CDBHashSum32 (a ++ b) = CDBHashSum32Update b (CDBHashSum32 a) /\
  0 <= CDBHashSum32 (a ++ b) < 2 ^ 32.
Proof.
  split; [|split; [|split; [|split]]].
  - unfold cdbHash_Write. cbn [digest32]. now rewrite CDBHashSum32Update_app.
  - unfold Sum32, cdbHash_Write, newCDBHash, CDBHashSum32. cbn [digest32].
    now rewrite CDBHashSum32Update_app.
  - reflexivity.
  - unfold CDBHashSum32. now rewrite CDBHashSum32Update_app.
  - exact (keyHash_range (a ++ b)).
Qed.

(** X14: [Sum(b)] does not append the digest to [b].  It writes the digest
    over the first four bytes of [b], and panics when [b] has fewer than
    four (so for the customary [Sum(nil)]); what it appends is four zero
    bytes.  The rest of [b] is kept. *)
Theorem Sum_overwrites_prefix (data b : list byte) :
  let h := cdbHash_Write newCDBHash data in
  ((length b < 4)%nat -> cdbHash_Sum h b = Panic) /\
  ((4 <= length b)%nat ->
   exists out,
     cdbHash_Sum h b = Ok out /\
     length out = (length b + 4)%nat /\
     LittleEndian.Uint32 (firstn 4 out) = CDBHashSum32 data /\
     skipn 4 (firstn (length b) out) = skipn 4 b /\
     skipn (length b) out = repeat x00 4).
Proof.
  intros h. unfold cdbHash_Sum, PutUint32_at. split.
  - intros Hl. destruct (Nat.ltb_spec (length b) 4); [reflexivity|lia].
  - intros Hl. destruct (Nat.ltb_spec (length b) 4); [lia|].
    eexists. split; [reflexivity|].
    assert (Hp : length (LittleEndian.PutUint32 (Sum32 h) ++ skipn 4 b)
                 = length b).
    { rewrite length_app, PutUint32_length, length_skipn. lia. }
    split; [|split; [|split]].
    + rewrite length_app, Hp. reflexivity.
    + rewrite <- app_assoc.
      rewrite <- (PutUint32_length (Sum32 h)) at 1.
      rewrite firstn_length_app, Uint32_PutUint32.
      change (uint32 (keyHash data) = keyHash data).
      apply uint32_small. pose proof (keyHash_range data) as R.
      unfold maxUint32. lia.
    + rewrite <- Hp at 1. rewrite firstn_length_app.
      rewrite <- (PutUint32_length (Sum32 h)) at 1.
      apply skipn_length_app.
    + rewrite <- Hp at 1. apply skipn_length_app.
Qed.

Lemma Sum_overwrites_prefix_witness :
  cdbHash_Sum (cdbHash_Write newCDBHash (bytes "foo")) [] = Panic.
Proof.
  apply (proj1 (Sum_overwrites_prefix (bytes "foo") [])).
  cbn [length]. lia.
Defined.

Lemma holds_write_at (d p : list byte) (at_ : nat) :
  holds (write_at d at_ p) (Z.of_nat at_) p.
Proof.
  unfold write_at, holds.
  exists (firstn at_ d ++ repeat x00 (at_ - length d)),
         (skipn (at_ + length p) d).
  split; [now rewrite <- app_assoc|].
  unfold len. rewrite length_app, length_firstn, repeat_length. lia.
Qed.

(** X15: a tuple written with [writeTuple] is the tuple [readTuple] reads
    at the position it was written at: the two words, reduced modulo
    [2^32] as the conversion to [uint32] does, so unchanged when they are
    [uint32] values.  On a closed store [writeTuple] returns the error of
    the write and leaves the store alone. *)
Theorem tuple_round_trip (f : File) (first second : Z) :
  (closed f = false ->
   snd (writeTuple_v0 first second f) = Ok tt /\
   pos (fst (writeTuple_v0 first second f)) = (pos f + 8)%nat /\
   readTuple (fst (writeTuple_v0 first second f)) (Z.of_nat (pos f))
   = Ok (uint32 first, uint32 second) /\
   (0 <= first <= maxUint32 -> 0 <= second <= maxUint32 ->
    readTuple (fst (writeTuple_v0 first second f)) (Z.of_nat (pos f))
    = Ok (first, second))) /\
  (closed f = true ->
   writeTuple_v0 first second f = (f, Err ErrClosed)).
Proof.
  unfold writeTuple_v0, bind, File_Write, ret. split.
  - intros Hc. rewrite Hc. cbn [fst snd pos].
    split; [reflexivity|]. split.
    { rewrite length_app, !PutUint32_length. reflexivity. }
    assert (R : readTuple
                  {| data := write_at (data f) (pos f)
                               (LittleEndian.PutUint32 first ++
                                LittleEndian.PutUint32 second);
                     pos := (pos f +
                             length (LittleEndian.PutUint32 first ++
                                     LittleEndian.PutUint32 second))%nat;
                     closed := false; isCloser := isCloser f;
                     isReaderAt := isReaderAt f |} (Z.of_nat (pos f))
                = Ok (uint32 first, uint32 second)).
    { apply readTuple_holds; [reflexivity|]. cbn [data].
      apply holds_write_at. }
    split; [exact R|].
    intros H1 H2. rewrite R. now rewrite !uint32_small.
  - intros Hc. now rewrite Hc.
Qed.

Lemma tuple_round_trip_witness :
  readTuple (fst (writeTuple_v0 3 4294967295 emptyFile)) 0
  = Ok (3, 4294967295).
Proof.
  refine (proj2 (proj2 (proj2 (proj1 (tuple_round_trip emptyFile 3 4294967295)
                                 eq_refl))) _ _).
  - unfold maxUint32. lia.
  - unfold maxUint32. lia.
Defined.




(** ** The earlier probe loop *)

(** Slot [j] of table [i] looked up with any key. *)
Lemma slot_lookup (records : list record) (cdb : CDB) (i j : nat) (p : Z)
    (k v : list byte) :
  Finished records cdb -> (i < 256)%nat ->
  (j < length (bucket i (placed indexSize records)))%nat ->
  nth j (bucket i (placed indexSize records)) (0, ([], [])) = (p, (k, v)) ->
  readTuple (reader cdb)
    (uint32 (table_offset (nth i (cdb_index cdb) zeroTable) +
             uint32 (8 * Z.of_nat j))) = Ok (keyHash k, p) /\
  (forall key, getValueAt cdb p key
               = Ok (if bytes_eq_dec k key then Some v else None)) /\
  Z.of_nat j + 1 <= maxUint32.
Proof.
  intros HF Hb Hj Hn.
  set (ps := bucket i (placed indexSize records)) in *.
  destruct (Finished_table _ _ _ HF Hb) as [Htbl Hfit].
  pose proof (holds_table _ _ _ HF Hb) as Ht.
  unfold encodeTable in Ht.
  rewrite nth_entriesOf in Hfit, Ht by assumption.
  fold ps in Hfit, Ht.
  assert (Hlen : len (map entryOf ps) = len ps)
    by (unfold len; now rewrite length_map).
  rewrite Hlen in Hfit.
  pose proof (lenSum_nonneg (entriesOf records) (seq 0 i)) as Hs.
  pose proof (totalSize_nonneg records) as Hts.
  apply (holds_entry _ _ _ j (entryOf (0, ([], [])))) in Ht;
    [|now rewrite length_map].
  rewrite map_nth, Hn in Ht.
  assert (Hin : In (p, (k, v)) ps) by (rewrite <- Hn; now apply nth_In).
  destruct (bucket_In i _ _ Hin) as [Hpl _].
  destruct (Finished_regions _ _ HF) as (_ & Hrec & _).
  destruct (holds_placed _ _ _ _ _ Hrec Hpl) as (Hh & Hlo & Hhi).
  assert (HjL : Z.of_nat j < len ps) by (unfold len; lia).
  pose proof (recordSize_pos (k, v)) as Hrs.
  rewrite Htbl. cbn [table_offset].
  rewrite (uint32_small (8 * Z.of_nat j)) by (unfold indexSize in *; lia).
  rewrite uint32_small by (unfold indexSize in *; lia).
  unfold encodeEntry, entryOf in Ht. cbn [hash offset fst snd] in Ht.
  rewrite (readTuple_holds _ _ _ _ (fin_open _ _ HF) Ht).
  rewrite uint32_idem.
  rewrite (uint32_small (keyHash k))
    by (pose proof (keyHash_range k); unfold maxUint32; lia).
  rewrite (uint32_small p) by (unfold indexSize in *; lia).
  split; [reflexivity|]. split; [|unfold indexSize in *; lia].
  intros key.
  apply (getValueAt_record cdb p k v key (fin_open _ _ HF) Hh).
  unfold indexSize in *. lia.
Qed.

Lemma probe_v0_miss (records : list record) (cdb : CDB) (key : list byte) :
  Finished records cdb ->
  (forall p k v, In (p, (k, v)) (bucketFor records key) ->
                 keyHash k <> 0 /\ k <> key) ->
  forall (fuel j : nat),
    (j < length (bucketFor records key))%nat ->
    probe_v0 fuel cdb key (keyHash key)
      (nth (bucketOf key) (cdb_index cdb) zeroTable) (Z.of_nat j) = None.
Proof.
  intros HF Hmiss. unfold bucketFor in *.
  pose proof (bucketOf_lt key) as Hb.
  assert (HL : table_length (nth (bucketOf key) (cdb_index cdb) zeroTable)
               = len (bucket (bucketOf key) (placed indexSize records))).
  { destruct (Finished_table _ _ _ HF Hb) as [-> _].
    cbn [table_length]. rewrite nth_entriesOf by assumption.
    unfold len. now rewrite length_map. }
  induction fuel as [|fuel IH]; intros j Hj; [reflexivity|].
  destruct (nth j (bucket (bucketOf key) (placed indexSize records))
              (0, ([], []))) as [p [k v]] eqn:Hn.
  destruct (slot_lookup records cdb (bucketOf key) j p k v HF Hb Hj Hn)
    as (HR & HG & Hsmall).
  assert (Hin : In (p, (k, v))
                  (bucket (bucketOf key) (placed indexSize records)))
    by exact (eq_ind _ (fun x => In x _) (nth_In _ _ Hj) _ Hn).
  destruct (Hmiss p k v Hin) as [Hz Hk].
  cbn [probe_v0]. rewrite HR.
  destruct (Z.eqb_spec (keyHash k) 0) as [E|_]; [contradiction|].
  rewrite (HG key). destruct (bytes_eq_dec k key) as [E|_]; [contradiction|].
  rewrite HL. rewrite (uint32_small (Z.of_nat j + 1)) by lia.
  assert (Hpos : 0 < len (bucket (bucketOf key) (placed indexSize records)))
    by (unfold len; unfold record in *; lia).
  pose proof (Z.mod_pos_bound (Z.of_nat j + 1) _ Hpos) as Hm.
  assert (EN : probe_v0 fuel cdb key (keyHash key)
                 (nth (bucketOf key) (cdb_index cdb) zeroTable)
                 ((Z.of_nat j + 1) mod
                  len (bucket (bucketOf key) (placed indexSize records)))
               = None).
  { rewrite <- (Z2Nat.id ((Z.of_nat j + 1) mod
                  len (bucket (bucketOf key) (placed indexSize records))))
      by lia.
    apply IH. unfold len in Hm |- *. unfold record in *. lia. }
  rewrite EN. destruct (keyHash k =? keyHash key); reflexivity.
Qed.

(** X17: the earlier [Get], whose loop has no test on the slot being back
    where the probe started, never returns for a key that is missing from a
    bucket that is not empty (and holds no key of hash 0): no number of
    iterations is enough.  The current [Get] answers not found on the same
    store. *)
Theorem Get_v0_never_returns_on_miss (how : finishing) (f : File)
    (records : list record) (cdb : CDB) (key : list byte) :
  build how f records = Ok cdb ->
  bucketFor records key <> [] ->
  (forall k v, In (k, v) records -> bucketOf k = bucketOf key ->
               keyHash k <> 0 /\ k <> key) ->
  (forall fuel, Get_v0 fuel cdb key = None) /\
  Get cdb key = Some (Ok None).
Proof.
  intros Hb Hne Hmiss. pose proof (build_Finished _ _ _ _ Hb) as HF.
  assert (Hmiss' : forall p k v, In (p, (k, v)) (bucketFor records key) ->
                                 keyHash k <> 0 /\ k <> key).
  { intros p k v Hin. apply bucketFor_In in Hin as [Hp Hbk].
    exact (Hmiss k v (placed_In _ _ _ _ Hp) Hbk). }
  assert (HL : table_length (nth (bucketOf key) (cdb_index cdb) zeroTable)
               = len (bucketFor records key)).
  { destruct (Finished_table _ _ _ HF (bucketOf_lt key)) as [-> _].
    cbn [table_length]. rewrite nth_entriesOf by apply bucketOf_lt.
    unfold len, bucketFor. now rewrite length_map. }
  assert (Hpos : 0 < len (bucketFor records key)).
  { destruct (bucketFor records key); [contradiction|].
    rewrite len_cons. pose proof (len_nonneg l). lia. }
  split.
  - intros fuel. unfold Get_v0. fold (bucketOf key). cbv zeta. rewrite HL.
    destruct (Z.eqb_spec (len (bucketFor records key)) 0); [lia|].
    pose proof (Z.mod_pos_bound (Z.shiftr (keyHash key) 8) _ Hpos) as Hm.
    rewrite <- (Z2Nat.id (Z.shiftr (keyHash key) 8 mod
                          len (bucketFor records key))) by lia.
    rewrite (probe_v0_miss records cdb key HF Hmiss'); [reflexivity|].
    unfold len in Hm |- *. unfold record in *. lia.
  - rewrite (Get_scan records cdb key HF).
    destruct (scan_cases key (probed records key)) as [[v E]|[E|E]];
      rewrite E; try reflexivity.
    exfalso. destruct (scan_Hit _ _ _ E) as [p Hp].
    apply probed_In in Hp. destruct (Hmiss' p key v Hp) as [_ N]. now apply N.
Qed.

Lemma Get_v0_never_returns_on_miss_witness :
  Get_v0 1000 (storeOf ByClose [(bytes "playwright", bytes "wow")])
    (bytes "snush") = None.
Proof.
  refine (proj1 (Get_v0_never_returns_on_miss ByClose emptyFile
                   [(bytes "playwright", bytes "wow")]
                   (storeOf ByClose [(bytes "playwright", bytes "wow")])
                   (bytes "snush") _ _ _) 1000%nat).
  - vm_compute. reflexivity.
  - vm_compute. intros HZ. discriminate HZ.
  - intros k v Hin _. cbn in Hin.
    decompose [or] Hin; try contradiction;
      match goal with [ E : _ = (k, v) |- _ ] => inversion E; subst end.
    split; vm_compute; intros HZ; discriminate HZ.
Defined.


(** ** The writer without a buffer *)

Lemma write_at_pre (d p : list byte) (n : nat) :
  write_at d n p
  = (firstn n d ++ repeat x00 (n - length d)) ++ p ++ skipn (n + length p) d.
Proof. unfold write_at. now rewrite <- app_assoc. Qed.

Lemma write_at_pre_length (d : list byte) (n : nat) :
  length (firstn n d ++ repeat x00 (n - length d)) = n.
Proof. rewrite length_app, length_firstn, repeat_length. lia. Qed.

Lemma write_at_write_at (d a b : list byte) (n : nat) :
  write_at (write_at d n a) (n + length a) b = write_at d n (a ++ b).
Proof.
  rewrite (write_at_pre d a), (write_at_pre d (a ++ b)).
  pose proof (write_at_pre_length d n) as Hl.
  set (pre := firstn n d ++ repeat x00 (n - length d)) in *.
  replace (pre ++ a ++ skipn (n + length a) d)
    with ((pre ++ a) ++ skipn (n + length a) d) by now rewrite <- app_assoc.
  replace (n + length a)%nat with (length (pre ++ a)) at 2
    by (rewrite length_app; lia).
  rewrite write_at_app, skipn_skipn, <- !app_assoc, length_app.
  do 3 (apply f_equal). apply (f_equal (fun k => skipn k d)). lia.
Qed.

Lemma File_Write_appendedTo (f : File) (bs p : list byte) :
  File_Write p (appendedTo f bs) = (appendedTo f (bs ++ p), Ok (len p)).
Proof.
  unfold File_Write, appendedTo. cbn [closed data pos isCloser isReaderAt].
  rewrite write_at_write_at, length_app, Nat.add_assoc. reflexivity.
Qed.

Lemma appendedTo_freshStore (f : File) :
  appendedTo (freshStore f) [] = freshStore f.
Proof.
  unfold appendedTo, freshStore. cbn [data pos isCloser isReaderAt length].
  rewrite Nat.add_0_r. f_equal.
Qed.

Lemma NewWriter_v0_open (f : File) :
  closed f = false ->
  NewWriter_v0 f = Ok (writerAfter_v0 (freshStore f) [] false).
Proof.
  intros Hc. unfold writerAfter_v0. cbn [map concat].
  rewrite appendedTo_freshStore.
  unfold NewWriter_v0, Seek0, File_Write. rewrite Hc.
  cbn [closed data pos isCloser isReaderAt].
  unfold freshStore. do 3 f_equal.
Qed.

Lemma pos_writerAfter_v0 (f : File) (l : list record) (once : bool) :
  Z.of_nat (pos (writer (writerAfter_v0 (freshStore f) l once)))
  = indexSize + totalSize l.
Proof.
  cbn [writerAfter_v0 writer appendedTo pos freshStore].
  rewrite Nat2Z.inj_add, Z2Nat.id by (unfold indexSize; lia).
  fold (len (concat (map encodeRecord l))).
  now rewrite len_concat_records.
Qed.

Lemma onWriter_SeekCur (f : File) (bs : list byte) (E : list (list entry))
    (once : bool) :
  onWriter SeekCur
    {| writer := appendedTo f bs; entries := E; finalizeOnce := once;
       bufferedWriter := None; bufferedOffset := 0 |}
  = ({| writer := appendedTo f bs; entries := E; finalizeOnce := once;
        bufferedWriter := None; bufferedOffset := 0 |},
     Ok (Z.of_nat (pos f + length bs))).
Proof. reflexivity. Qed.

Lemma onWriter_File_Write (f : File) (bs p : list byte)
    (E : list (list entry)) (once : bool) :
  onWriter (File_Write p)
    {| writer := appendedTo f bs; entries := E; finalizeOnce := once;
       bufferedWriter := None; bufferedOffset := 0 |}
  = ({| writer := appendedTo f (bs ++ p); entries := E; finalizeOnce := once;
        bufferedWriter := None; bufferedOffset := 0 |}, Ok (len p)).
Proof.
  unfold onWriter. cbn [writer]. rewrite File_Write_appendedTo. reflexivity.
Qed.

Lemma onWriter_writeTuple_v0 (f : File) (bs : list byte) (x y : Z)
    (E : list (list entry)) (once : bool) :
  onWriter (writeTuple_v0 x y)
    {| writer := appendedTo f bs; entries := E; finalizeOnce := once;
       bufferedWriter := None; bufferedOffset := 0 |}
  = ({| writer := appendedTo f (bs ++ LittleEndian.PutUint32 x ++
                                LittleEndian.PutUint32 y);
        entries := E; finalizeOnce := once;
        bufferedWriter := None; bufferedOffset := 0 |}, Ok tt).
Proof.
  unfold onWriter, writeTuple_v0, bind. cbn [writer].
  rewrite File_Write_appendedTo. reflexivity.
Qed.

Lemma Put_v0_writerAfter (f : File) (l : list record) (once : bool)
    (key value : list byte) :
  Put_v0 key value (writerAfter_v0 (freshStore f) l once) =
  if indexSize + totalSize l >? maxUint32
  then (writerAfter_v0 (freshStore f) l once, Err ErrTooMuchData)
  else (writerAfter_v0 (freshStore f) (l ++ [(key, value)]) once, Ok tt).
Proof.
  pose proof (pos_writerAfter_v0 f l once) as HP.
  cbn [writerAfter_v0 writer appendedTo pos] in HP.
  unfold Put_v0, writerAfter_v0, bind.
  rewrite onWriter_SeekCur, HP.
  destruct (indexSize + totalSize l >? maxUint32); [reflexivity|].
  unfold ret, modify, set_entries.
  cbn [writer entries finalizeOnce bufferedWriter bufferedOffset].
  rewrite onWriter_writeTuple_v0, !onWriter_File_Write.
  fold (bucketOf key).
  rewrite entriesOf_snoc, map_app, concat_app.
  cbn [map concat]. rewrite app_nil_r.
  unfold encodeRecord. cbn [fst snd]. rewrite <- !app_assoc. reflexivity.
Qed.

Lemma PutAll_v0_fits (f : File) (once : bool) (rs : list record) :
  forall l,
    indexSize + totalSize (l ++ rs) <= maxUint32 ->
    PutAll_v0 rs (writerAfter_v0 (freshStore f) l once)
    = (writerAfter_v0 (freshStore f) (l ++ rs) once, Ok tt).
Proof.
  induction rs as [|[k v] rs IH]; intros l Hfit.
  - now rewrite app_nil_r.
  - cbn [PutAll_v0]. unfold bind. rewrite Put_v0_writerAfter.
    rewrite totalSize_app, totalSize_cons in Hfit.
    pose proof (totalSize_nonneg rs). pose proof (recordSize_pos (k, v)).
    destruct (Z.gtb_spec (indexSize + totalSize l) maxUint32); [lia|].
    rewrite IH; rewrite <- app_assoc; [reflexivity|].
    cbn [app]. rewrite totalSize_app, totalSize_cons. lia.
Qed.

Lemma writeEntries_v0_ok (f : File) (E : list (list entry)) (once : bool)
    (es : list entry) :
  forall bs,
    writeEntries_v0 es
      {| writer := appendedTo f bs; entries := E; finalizeOnce := once;
         bufferedWriter := None; bufferedOffset := 0 |}
    = ({| writer := appendedTo f (bs ++ concat (map encodeEntry es));
          entries := E; finalizeOnce := once;
          bufferedWriter := None; bufferedOffset := 0 |}, Ok tt).
Proof.
  induction es as [|e es IH]; intros bs.
  - cbn [map concat]. now rewrite app_nil_r.
  - cbn [writeEntries_v0]. unfold bind, onWriter, writeTuple_v0, ret, set_writer.
    cbn [writer entries finalizeOnce bufferedWriter bufferedOffset].
    unfold bind. rewrite File_Write_appendedTo.
    rewrite IH. cbn [map concat]. unfold encodeEntry at 2.
    now rewrite <- !app_assoc.
Qed.

Lemma writeTables_v0_ok (f : File) (E : list (list entry)) (once : bool)
    (buckets : list nat) :
  forall bs idx,
    Z.of_nat (pos f + length bs) + 8 * lenSum E buckets <= maxUint32 ->
    writeTables_v0 buckets idx
      {| writer := appendedTo f bs; entries := E; finalizeOnce := once;
         bufferedWriter := None; bufferedOffset := 0 |}
    = ({| writer := appendedTo f (bs ++ concat (map (encodeTable E) buckets));
          entries := E; finalizeOnce := once;
          bufferedWriter := None; bufferedOffset := 0 |},
       Ok (layTables E (Z.of_nat (pos f + length bs)) buckets idx)).
Proof.
  induction buckets as [|i rest IH]; intros bs idx Hfit.
  - cbn [map concat]. now rewrite app_nil_r.
  - rewrite lenSum_cons in Hfit.
    pose proof (lenSum_nonneg E rest). pose proof (len_nonneg (nth i E [])).
    cbn [writeTables_v0]. unfold bind, onWriter, SeekCur, gets, ret, fail,
      set_writer.
    cbn [writer entries finalizeOnce bufferedWriter bufferedOffset appendedTo
         closed pos].
    destruct (Z.gtb_spec (Z.of_nat (pos f + length bs)) maxUint32); [lia|].
    fold (appendedTo f bs).
    rewrite writeEntries_v0_ok.
    assert (HP : Z.of_nat (pos f + length (bs ++ concat (map encodeEntry (nth i E []))))
                 = Z.of_nat (pos f + length bs) + 8 * len (nth i E [])).
    { rewrite length_app, Nat.add_assoc, Nat2Z.inj_add.
      fold (len (concat (map encodeEntry (nth i E [])))).
      now rewrite len_concat_entries. }
    cbn [entries].
    rewrite IH by (rewrite HP; lia).
    rewrite HP. cbn [map concat layTables]. unfold encodeTable at 2.
    now rewrite <- !app_assoc.
Qed.

Lemma finalize_v0_ok (f : File) (E : list (list entry)) (once : bool)
    (bs : list byte) :
  Z.of_nat (pos f + length bs) + 8 * lenSum E (seq 0 256) <= maxUint32 ->
  let idx := layTables E (Z.of_nat (pos f + length bs)) (seq 0 256) zeroIndex in
  finalize_v0
    {| writer := appendedTo f bs; entries := E; finalizeOnce := once;
       bufferedWriter := None; bufferedOffset := 0 |}
  = ({| writer := finalStore f (bs ++ concat (map (encodeTable E) (seq 0 256)))
                    idx;
        entries := E; finalizeOnce := once;
        bufferedWriter := None; bufferedOffset := 0 |}, Ok idx).
Proof.
  intros Hfit idx. unfold finalize_v0, bind.
  rewrite (writeTables_v0_ok f E once (seq 0 256) bs zeroIndex Hfit).
  fold idx. unfold onWriter, Seek0, File_Write, ret, set_writer.
  cbn [writer entries finalizeOnce bufferedWriter bufferedOffset appendedTo
       closed pos data isCloser isReaderAt].
  reflexivity.
Qed.

Lemma finalizeOnce_Do_v0_writerAfter (f : File) (records : list record) :
  indexSize + totalSize records + 8 * len records <= maxUint32 ->
  finalizeOnce_Do_v0 (writerAfter_v0 (freshStore f) records false) =
  ({| writer :=
        finalStore (freshStore f)
          (concat (map encodeRecord records) ++
           concat (map (encodeTable (entriesOf records)) (seq 0 256)))
          (indexOf records);
      entries := entriesOf records; finalizeOnce := true;
      bufferedWriter := None; bufferedOffset := 0 |},
   Ok (indexOf records)).
Proof.
  intros Hfit.
  pose proof (pos_writerAfter_v0 f records true) as HP.
  cbn [writerAfter_v0 writer appendedTo pos] in HP.
  unfold finalizeOnce_Do_v0, writerAfter_v0, set_finalizeOnce.
  cbn [writer entries finalizeOnce bufferedWriter bufferedOffset].
  rewrite finalize_v0_ok by (rewrite HP, lenSum_entriesOf; exact Hfit).
  rewrite HP, layTables_indexOf. reflexivity.
Qed.

(** X18: the two revisions of the writer write the same database.
    Whenever the buffered writer ([NewWriter], [Put]s, then [Close] or
    [Freeze]) returns a reader, the writer without a buffer, given the same
    store and the same [Put]s, returns that very reader: same bytes in the
    store, same index. *)
Theorem unbuffered_writer_agrees (how : finishing) (f : File)
    (records : list record) (cdb : CDB) :
  build how f records = Ok cdb ->
  build_v0 how f records = Ok cdb.
Proof.
  intros Hb. destruct (build_inv _ _ _ _ Hb) as (Hc & Hfit & Hfin).
  pose proof (totalSize_nonneg records) as Hts.
  pose proof (len_nonneg records) as Hl.
  unfold build_v0. rewrite (NewWriter_v0_open f Hc).
  rewrite (PutAll_v0_fits f false records []) by (cbn [app]; lia).
  cbn [app]. rewrite <- Hfin.
  assert (Hfit' : indexSize + totalSize records +
                  8 * lenSum (entriesOf records) (seq 0 256) <= maxUint32)
    by now rewrite lenSum_entriesOf.
  destruct how; unfold finish_v0, finish, Freeze_v0, Freeze, Close_v0, Close,
    bind.
  - rewrite (finalizeOnce_Do_v0_writerAfter f records Hfit).
    rewrite (finalizeOnce_Do_writerAfter f records Hc Hfit').
    unfold gets, ret, fail.
    cbn [writer finalStore isReaderAt freshStore].
    destruct (isReaderAt f); reflexivity.
  - rewrite (finalizeOnce_Do_v0_writerAfter f records Hfit).
    rewrite (finalizeOnce_Do_writerAfter f records Hc Hfit').
    unfold gets, ret, onWriter, File_Close, set_writer.
    cbn [writer finalStore closed isCloser freshStore].
    destruct (isCloser f); reflexivity.
Qed.

Lemma unbuffered_writer_agrees_witness :
  build_v0 ByFreeze emptyFile sampleRecords
  = Ok (storeOf ByFreeze sampleRecords).
Proof.
  exact (unbuffered_writer_agrees ByFreeze emptyFile sampleRecords
           (storeOf ByFreeze sampleRecords) sampleRecords_built).
Defined.

(** X19: where the two revisions differ is the record that crosses the
    ceiling.  The buffered [Put] returns [ErrTooMuchData] for it; the
    [Put] without a buffer, which checks the position before it writes,
    writes the record and returns no error.  From then on it turns every
    [Put] away without writing, and [Close] and [Freeze] return
    [ErrTooMuchData] before any table or the header is written. *)
Theorem unbuffered_Put_checks_before_writing (f : File) (l : list record)
    (key value : list byte) :
  indexSize + totalSize l <= maxUint32 ->
  indexSize + totalSize (l ++ [(key, value)]) > maxUint32 ->
  let w := fst (Put_v0 key value (writerAfter_v0 (freshStore f) l false)) in
  snd (Put key value (writerAfter (freshStore f) l)) = Err ErrTooMuchData /\
  snd (Put_v0 key value (writerAfter_v0 (freshStore f) l false)) = Ok tt /\
  w = writerAfter_v0 (freshStore f) (l ++ [(key, value)]) false /\
  (forall k v, Put_v0 k v w = (w, Err ErrTooMuchData)) /\
  Close_v0 w = (set_finalizeOnce true w, Err ErrTooMuchData) /\
  Freeze_v0 w = (set_finalizeOnce true w, Err ErrTooMuchData).
Proof.
  intros Hle Hgt. cbv zeta.
  rewrite Put_writerAfter, Put_v0_writerAfter.
  destruct (Z.gtb_spec (indexSize + totalSize l) maxUint32); [lia|].
  destruct (Z.gtb_spec (indexSize + totalSize (l ++ [(key, value)])) maxUint32);
    [|lia].
  cbn [fst snd].
  split; [reflexivity|]. split; [reflexivity|]. split; [reflexivity|].
  split.
  - intros k v. rewrite Put_v0_writerAfter.
    destruct (Z.gtb_spec (indexSize + totalSize (l ++ [(key, value)]))
                maxUint32); [reflexivity|lia].
  - pose proof (pos_writerAfter_v0 f (l ++ [(key, value)]) true) as HP.
    cbn [writerAfter_v0 writer appendedTo pos] in HP.
    assert (HF : finalize_v0
                   (set_finalizeOnce true
                      (writerAfter_v0 (freshStore f) (l ++ [(key, value)]) false))
                 = (set_finalizeOnce true
                      (writerAfter_v0 (freshStore f) (l ++ [(key, value)]) false),
                    Err ErrTooMuchData)).
    { unfold finalize_v0, bind. cbn [seq writeTables_v0].
      unfold bind, onWriter, SeekCur, fail, set_writer, set_finalizeOnce.
      cbn [writerAfter_v0 writer appendedTo closed pos entries finalizeOnce
           bufferedWriter bufferedOffset].
      rewrite HP.
      destruct (Z.gtb_spec (indexSize + totalSize (l ++ [(key, value)]))
                  maxUint32); [reflexivity|lia]. }
    unfold Close_v0, Freeze_v0, bind, finalizeOnce_Do_v0.
    cbn [writerAfter_v0 finalizeOnce]. fold (writerAfter_v0 (freshStore f)
                                              (l ++ [(key, value)]) false).
    rewrite HF. split; reflexivity.
Qed.

Lemma unbuffered_Put_checks_before_writing_witness :
  snd (Put (fst oversized) (snd oversized)
         (writerAfter (freshStore emptyFile) [])) = Err ErrTooMuchData /\
  snd (Put_v0 (fst oversized) (snd oversized)
         (writerAfter_v0 (freshStore emptyFile) [] false)) = Ok tt.
Proof.
  assert (H1 : indexSize + totalSize [] <= maxUint32).
  { change (totalSize []) with 0. unfold indexSize, maxUint32. lia. }
  assert (H2 : indexSize + totalSize ([] ++ [(fst oversized, snd oversized)])
               > maxUint32).
  { cbn [app]. unfold totalSize. cbn [fold_right].
    change (fst oversized, snd oversized) with oversized.
    rewrite oversized_size. unfold indexSize, maxUint32. lia. }
  destruct (unbuffered_Put_checks_before_writing emptyFile []
              (fst oversized) (snd oversized) H1 H2) as (R1 & R2 & _).
  split; [exact R1|exact R2].
Defined.


(** ** Reading after the reader was closed *)

Lemma readTuple_closed (r : File) (offset : Z) :
  closed r = true -> readTuple r offset = Err ErrClosed.
Proof. intros Hc. unfold readTuple, ReadAt. now rewrite Hc. Qed.

(** X20: [Close] of the reader closes the store when it has a [Close]
    method.  Afterwards [Get] returns the error of the read, except for a
    key whose bucket is empty, which is still reported missing, because no
    read is made for it; [Each] returns the error as soon as the database
    holds a record; and a second [Close] returns the error of closing a
    closed store. *)
Theorem reads_after_Close (how : finishing) (f : File) (records : list record)
    (cdb : CDB) :
  build how f records = Ok cdb ->
  isCloser (reader cdb) = true ->
  let after := fst (CDB_Close cdb) in
  snd (CDB_Close cdb) = Ok tt /\
  snd (CDB_Close after) = Err ErrClosed /\
  (forall key,
     Get after key =
     Some (if table_length (nth (bucketOf key) (cdb_index cdb) zeroTable) =? 0
           then Ok None else Err ErrClosed)) /\
  (forall (S : Type) (eachFunc : list byte -> list byte -> M S unit) (s : S)
          (fuel : nat),
     records <> [] ->
     Each (Datatypes.S fuel) after eachFunc s = Some (s, Err ErrClosed)).
Proof.
  intros Hb HiC. pose proof (build_Finished _ _ _ _ Hb) as HF.
  pose proof (fin_open _ _ HF) as Hopen.
  assert (EA : CDB_Close cdb =
               ({| reader := {| data := data (reader cdb);
                                pos := pos (reader cdb); closed := true;
                                isCloser := isCloser (reader cdb);
                                isReaderAt := isReaderAt (reader cdb) |};
                   cdb_index := cdb_index cdb |}, Ok tt)).
  { unfold CDB_Close, File_Close. now rewrite HiC, Hopen. }
  cbv zeta. rewrite EA. cbn [fst snd].
  split; [reflexivity|]. split.
  { unfold CDB_Close, File_Close. cbn [reader isCloser closed].
    now rewrite HiC. }
  split.
  - intros key. unfold Get, Get_fuel, probeOf. cbn [cdb_index].
    fold (bucketOf key). cbv zeta.
    destruct (Finished_table _ _ _ HF (bucketOf_lt key)) as [-> _].
    cbn [table_length table_offset].
    pose proof (len_nonneg (nth (bucketOf key) (entriesOf records) [])) as Hl.
    destruct (Z.eqb_spec (len (nth (bucketOf key) (entriesOf records) [])) 0)
      as [E|N]; [reflexivity|].
    destruct (Z.to_nat (len (nth (bucketOf key) (entriesOf records) [])))
      as [|n] eqn:En; [lia|].
    cbn [probe reader]. rewrite readTuple_closed by reflexivity. reflexivity.
  - intros S eachFunc s fuel Hne. unfold Each. cbn [cdb_index].
    destruct (Finished_table records cdb 0 HF) as [-> _]; [lia|].
    cbn [table_offset seq]. change (lenSum (entriesOf records) []) with 0.
    rewrite (uint32_small indexSize) by (unfold indexSize, maxUint32; lia).
    apply eachLoop_decode_error.
    + destruct records as [|r rest]; [contradiction|].
      rewrite totalSize_cons. pose proof (recordSize_pos r).
      pose proof (totalSize_nonneg rest). lia.
    + left. apply readTuple_closed. reflexivity.
Qed.

Lemma reads_after_Close_witness :
  Get (fst (CDB_Close (storeOf ByClose sampleRecords))) (bytes "foo")
  = Some (if table_length
               (nth (bucketOf (bytes "foo"))
                  (cdb_index (storeOf ByClose sampleRecords)) zeroTable) =? 0
          then Ok None else Err ErrClosed).
Proof.
  refine (proj1 (proj2 (proj2
            (reads_after_Close ByClose emptyFile sampleRecords
               (storeOf ByClose sampleRecords) _ _))) (bytes "foo")).
  - vm_compute. reflexivity.
  - vm_compute. reflexivity.
Defined.
